(** * ArduinoExtra: a shallow embedding of [aex::Vector], [aex::Array] and
    [aex::Function]

    The containers and the function wrapper of ArduinoExtra are C++ class
    templates that manage raw heap storage by hand.  They are embedded here
    as functions in a state monad over an explicit heap:

    - [size_t] is a [Z] reduced modulo [2 ^ size_bits] after every
      arithmetic operation of the source;
    - a pointer is [option loc] ([None] is [nullptr]), the heap is a finite
      map from locations to what is stored there;
    - a method that mutates [this] takes the object and returns the updated
      one;
    - what C++ leaves undefined (a store outside the allocated block, the
      use of a deleted object, [delete[]] of storage that [new[]] did not
      make, the end of a function that owes its caller a value) is the
      outcome [UB]. *)

From Stdlib Require Import ZArith Lia Floats.SpecFloat.
From stdpp Require Import base tactics option list gmap.

Local Open Scope Z_scope.

(** ** Outcomes and the heap monad *)

Inductive result (A : Type) : Type :=
  | Ok (a : A)
  | UB.
Arguments Ok {A} a.
Arguments UB {A}.

Definition M (S A : Type) : Type := S -> result (A * S).

#[global] Instance M_ret {S} : MRet (M S) := fun A a s => Ok (a, s).
#[global] Instance M_bind {S} : MBind (M S) := fun A B f m s =>
  match m s with
  | Ok (a, s') => f a s'
  | UB => UB
  end.

#[global] Instance result_ret : MRet result := fun A a => Ok a.
#[global] Instance result_bind : MBind result := fun A B f m =>
  match m with
  | Ok a => f a
  | UB => UB
  end.

(** A statement the language gives no meaning to. *)
Definition undefined {S A} : M S A := fun _ => UB.

(** [for (size_t i = 0; i < bound; i++) body(i)], for a [bound] the body
    leaves alone. *)
Fixpoint for_from {S} (n : nat) (i : Z) (body : Z -> M S unit) : M S unit :=
  match n with
  | O => mret tt
  | Datatypes.S n' => body i ;; for_from n' (i + 1) body
  end.

Definition for_loop {S} (bound : Z) (body : Z -> M S unit) : M S unit :=
  for_from (Z.to_nat bound) 0 body.

Abbreviation loc := positive.

(** ** Vector.h *)

Module Vec.
Section Vector.

Context {T : Type}.

(** Width of [size_t] in bits and [sizeof(T)] in bytes. *)
Variable size_bits : Z.
Variable sizeof_T : Z.

Definition wrap (z : Z) : Z := z mod 2 ^ size_bits.

(** A slot of a storage block is raw memory, holds an object, or held one
    whose destructor has run. *)
Inductive cell : Type :=
  | Raw
  | Obj (x : T)
  | Dead.

(** What the allocator and the element type see of a run. *)
Inductive event : Type :=
  | EvNew (p : loc) (bytes : Z)
  | EvDelete (p : loc)
  | EvDtor (p : option loc) (i : Z).

Record mem : Type := Mem {
  blocks : gmap loc (list cell);
  trace : list event
}.

(** [(T* )::operator new(bytes)]: a fresh block of raw slots, as many as fit
    in [bytes]. Allocation failure is not modelled, the source does not
    test for it. *)
Definition operator_new (bytes : Z) : M mem loc := fun st =>
  let p := fresh (dom (blocks st)) in
  Ok (p, Mem (<[p := replicate (Z.to_nat (bytes / sizeof_T)) Raw]> (blocks st))
             (trace st ++ [EvNew p bytes])).

(** Whether [T] has a trivial destructor. It decides what [delete[]] does
    with storage that [new[]] did not make. *)
Variable trivially_destructible : bool.

(** [delete[] p]: nothing for [nullptr], undefined for a block that is not
    live. The blocks of this heap all come from [::operator new]: no
    [new[]] has written an element count in front of them, and the
    language gives [delete[]] of such a block no meaning. What happens is
    taken from the implementations (the C++ ABI of gcc, avr-gcc and clang):
    where [T] has a trivial destructor [delete[]] looks for no count and
    gives the block back; for any other [T] it reads a count where there is
    none, runs that many destructors and frees at the address of the
    count, which is undefined here too. *)
Definition delete_array (p : option loc) : M mem unit := fun st =>
  match p with
  | None => Ok (tt, st)
  | Some q =>
      if trivially_destructible then
        match blocks st !! q with
        | Some _ =>
            Ok (tt, Mem (delete q (blocks st)) (trace st ++ [EvDelete q]))
        | None => UB
        end
      else UB
  end.

(** The slot [p[i]], when it lies inside a live block. *)
Definition slot (p : option loc) (i : Z) (st : mem) : option cell :=
  q ← p; cells ← blocks st !! q;
  if decide (0 <= i) then cells !! Z.to_nat i else None.

(** [p[i] = x]: the slot holds [x] afterwards; undefined outside the block. *)
Definition store (p : option loc) (i : Z) (x : T) : M mem unit := fun st =>
  match p, slot p i st with
  | Some q, Some _ =>
      Ok (tt, Mem (alter (<[Z.to_nat i := Obj x]>) q (blocks st)) (trace st))
  | _, _ => UB
  end.

(** [move(p[i])] read as a value: the object in the slot, which stays a
    (moved-from) object; undefined where there is none. *)
Definition load (p : option loc) (i : Z) : M mem T := fun st =>
  match slot p i st with
  | Some (Obj x) => Ok (x, st)
  | _ => UB
  end.

(** [p[i].~T()]: the call is recorded, and ends the lifetime of the slot
    when there is one. The element type is taken as the source uses it:
    assignable onto raw storage, with a destructor that can be called on
    any address. *)
Definition destroy (p : option loc) (i : Z) : M mem unit := fun st =>
  let tr := trace st ++ [EvDtor p i] in
  match p, slot p i st with
  | Some q, Some _ =>
      Ok (tt, Mem (alter (<[Z.to_nat i := Dead]>) q (blocks st)) tr)
  | _, _ => Ok (tt, Mem (blocks st) tr)
  end.

Record Vector : Type := mkVector {
  m_data : option loc;
  m_size : Z;
  m_capacity : Z
}.

(** [Vector()] *)
Definition Vector_new : Vector :=
  {| m_data := None; m_size := 0; m_capacity := 0 |}.

(** [reAllocate(newCapacity)]: the new block is allocated first, [m_size]
    is cut down to [newCapacity] where it is larger (the source marks the
    place with a comment, [// warning]), the elements are moved over, the
    old ones destroyed and the old block deleted. *)
Definition reAllocate (this : Vector) (newCapacity : Z) : M mem Vector :=
  newBlock ← operator_new (wrap (newCapacity * sizeof_T));
  let size := if decide (newCapacity < m_size this) then newCapacity
              else m_size this in
  for_loop size (fun i => x ← load (m_data this) i; store (Some newBlock) i x);;
  for_loop size (fun i => destroy (m_data this) i);;
  delete_array (m_data this);;
  mret {| m_data := Some newBlock; m_size := size; m_capacity := newCapacity |}.

(** [Vector(size_t initialCapacity)] *)
Definition Vector_with_capacity (initialCapacity : Z) : M mem Vector :=
  reAllocate Vector_new initialCapacity.

(** [m_capacity + m_capacity / 2 + 2], computed in [size_t]. *)
Definition grow (capacity : Z) : Z :=
  wrap (wrap (capacity + capacity / 2) + 2).

(** A [T&]: the address of a slot. *)
Definition lvalue : Type := option loc * Z.

(** What the parameters [const T& value] and [T&& value] are bound to: an
    object of the caller that is no element of a vector, given by the value
    it holds, or the element in a slot, as in [v.pushBack(v[0])]. *)
Inductive reference : Type :=
  | Outside (x : T)
  | Element (r : lvalue).

(** [value] read where the source reads it. *)
Definition value_of (value : reference) : M mem T :=
  match value with
  | Outside x => mret x
  | Element r => load r.1 r.2
  end.

(** [value] is no element of [this]. *)
Definition apart (value : reference) (this : Vector) : Prop :=
  match value with
  | Outside _ => True
  | Element r => r.1 <> m_data this
  end.

(** Both overloads, [pushBack(const T&)] and [pushBack(T&&)], have this
    body; they differ in copying or moving [value] into the slot. [value]
    is a reference, read after the reallocation. *)
Definition pushBack (this : Vector) (value : reference) : M mem Vector :=
  this ← (if decide (m_size this >= m_capacity this)
          then reAllocate this (grow (m_capacity this))
          else mret this);
  x ← value_of value;
  store (m_data this) (m_size this) x;;
  mret {| m_data := m_data this;
          m_size := wrap (m_size this + 1);
          m_capacity := m_capacity this |}.

(** [popBack()]: nothing on an empty vector. *)
Definition popBack (this : Vector) : M mem Vector :=
  if decide (m_size this > 0) then
    let this := {| m_data := m_data this;
                   m_size := wrap (m_size this - 1);
                   m_capacity := m_capacity this |} in
    destroy (m_data this) (m_size this);;
    mret this
  else mret this.

(** [clear()]: the loop counts [i] up to [m_size] and destroys
    [m_data[m_size]] each time round. *)
Definition clear (this : Vector) : M mem Vector :=
  for_loop (m_size this) (fun i => destroy (m_data this) (m_size this));;
  mret {| m_data := m_data this; m_size := 0; m_capacity := m_capacity this |}.

(** [operator[]], both overloads. The branch taken for an index that is out
    of range is empty in the source. *)
Definition operator_index (this : Vector) (index : Z) : M mem lvalue :=
  (if decide (index >= m_size this) then mret tt (* error *) else mret tt);;
  mret (m_data this, index).

(** Reading through a reference. *)
Definition read (r : lvalue) : M mem cell := fun st =>
  match slot r.1 r.2 st with
  | Some c => Ok (c, st)
  | None => UB
  end.

(** [getSize()] and [isEmpty()] *)
Definition getSize (this : Vector) : Z := m_size this.
Definition isEmpty (this : Vector) : bool := bool_decide (m_size this = 0).

(** [~Vector()] *)
Definition Vector_destroy (this : Vector) : M mem unit :=
  this ← clear this;
  delete_array (m_data this).

(** *** A vector and the list it holds

    [repr this st xs]: in the heap [st], [this] owns a live block of
    [m_capacity] slots whose first [m_size] slots hold the objects [xs]. *)
Definition block_holds (this : Vector) (st : mem) (xs : list T) : Prop :=
  match m_data this with
  | None => m_capacity this = 0
  | Some p =>
      exists cells, blocks st !! p = Some cells
        /\ Z.of_nat (length cells) = m_capacity this
        /\ take (length xs) cells = Obj <$> xs
  end.

Record repr (this : Vector) (st : mem) (xs : list T) : Prop := {
  repr_size : m_size this = Z.of_nat (length xs);
  repr_le : m_size this <= m_capacity this;
  repr_capacity : m_capacity this < 2 ^ size_bits;
  repr_block : block_holds this st xs
}.

(** A block of [capacity] elements can be asked of [operator new]: its size
    in bytes is a [size_t]. *)
Definition allocatable (capacity : Z) : Prop :=
  0 <= capacity /\ capacity * sizeof_T < 2 ^ size_bits.

(** The events of a reallocation that moves [n] elements out of [old] into
    the fresh block [p] of [capacity] slots. *)
Definition reallocation (old : option loc) (p : loc) (n : nat) (capacity : Z)
  : list event :=
  EvNew p (capacity * sizeof_T)
  :: (EvDtor old <$> seqZ 0 (Z.of_nat n))
  ++ match old with Some q => [EvDelete q] | None => [] end.

(** The new block of [n] slots while the elements are moved in: the first
    [j] of [xs], then raw slots. *)
Definition filled (xs : list T) (j n : nat) : list cell :=
  (Obj <$> take j xs) ++ replicate (n - j) Raw.

(** *** Client programs: interleavings of the three mutators, on values
    that are no elements of a vector *)
Inductive op : Type :=
  | Push (x : T)
  | Pop
  | Clear.

Definition step (this : Vector) (o : op) : M mem Vector :=
  match o with
  | Push x => pushBack this (Outside x)
  | Pop => popBack this
  | Clear => clear this
  end.

Fixpoint run (ops : list op) (this : Vector) : M mem Vector :=
  match ops with
  | [] => mret this
  | o :: ops => this ← step this o; run ops this
  end.

(** [pushBack] of each of [xs] in turn. *)
Fixpoint pushBack_all (xs : list T) (this : Vector) : M mem Vector :=
  match xs with
  | [] => mret this
  | x :: xs => this ← pushBack this (Outside x); pushBack_all xs this
  end.

(** The values a client expects after [ops], starting from [xs]: appended in
    order, removed from the end. *)
Fixpoint expected (xs : list T) (ops : list op) : list T :=
  match ops with
  | [] => xs
  | Push x :: ops => expected (xs ++ [x]) ops
  | Pop :: ops => expected (removelast xs) ops
  | Clear :: ops => expected [] ops
  end.

(** [this[index]] read as a value. *)
Definition get (this : Vector) (index : Z) : M mem cell :=
  r ← operator_index this index; read r.

(** The most elements the vector holds at a time while [ops] run on a
    vector of [n] elements. *)
Fixpoint peak (n : nat) (ops : list op) : nat :=
  match ops with
  | [] => n
  | Push _ :: ops => peak (Datatypes.S n) ops
  | Pop :: ops => Nat.max n (peak (Nat.pred n) ops)
  | Clear :: ops => Nat.max n (peak 0 ops)
  end.

(** No [pushBack] on a vector of fewer than [n] elements asks for a
    capacity above this. *)
Definition capacity_bound (n : nat) : Z :=
  Z.of_nat n + Z.of_nat n / 2 + 2.

(** [r = x] through a reference, as the non-const [operator[]] allows. *)
Definition assign (r : lvalue) (x : T) : M mem unit := store r.1 r.2 x.

(** The number of calls of [operator new] in a trace. *)
Fixpoint allocations (tr : list event) : nat :=
  match tr with
  | [] => O
  | EvNew _ _ :: tr => Datatypes.S (allocations tr)
  | _ :: tr => allocations tr
  end.

(** [st'] has the blocks of [st] at every address but those of [ps]. *)
Definition untouched (ps : list loc) (st st' : mem) : Prop :=
  forall q, q ∉ ps -> blocks st' !! q = blocks st !! q.

(** [this] lives on top of the blocks [others]: its own block is not one of
    them, and every other address holds in [st] what it holds in [others]. *)
Definition owns (others : gmap loc (list cell)) (this : Vector) (st : mem)
  : Prop :=
  (forall q, Some q <> m_data this -> blocks st !! q = others !! q)
  /\ (forall p, m_data this = Some p -> others !! p = None).

End Vector.

Arguments cell : clear implicits.
Arguments reference : clear implicits.
Arguments mem : clear implicits.
Arguments op : clear implicits.

End Vec.

(** ** Array.h *)

Module Arr.
Section Array.

Context {T : Type}.

(** The template parameter [size_t S]. *)
Variable S : Z.

(** [T data[S]] *)
Record Array : Type := mkArray { data : list T }.

(** A [T&] into [data]: the index of the element. *)
Definition lvalue : Type := Z.

(** [getSize()] *)
Definition getSize (this : Array) : Z := S.

(** [at], both overloads. The branch taken for an index that is out of
    bounds is empty in the source. *)
Definition at_ (this : Array) (index : Z) : result lvalue :=
  (if decide (index >= S) then mret tt (* error *) else mret tt);;
  mret index.

(** [operator[]], both overloads. *)
Definition operator_index (this : Array) (index : Z) : result lvalue :=
  mret index.

(** Reading through a reference; undefined outside [data]. *)
Definition read (this : Array) (r : lvalue) : result T :=
  match (if decide (0 <= r) then data this !! Z.to_nat r else None) with
  | Some x => Ok x
  | None => UB
  end.

(** [front()] and [back()], both overloads: [data[0]] and [data[S - 1]],
    the index computed in [size_t] of [size_bits] bits. *)
Variable size_bits : Z.

Definition front (this : Array) : result lvalue := mret 0.

Definition back (this : Array) : result lvalue :=
  mret ((S - 1) mod 2 ^ size_bits).

(** [r = x] through a reference, as the non-const overloads allow;
    undefined outside [data]. *)
Definition assign (this : Array) (r : lvalue) (x : T) : result Array :=
  match (if decide (0 <= r) then data this !! Z.to_nat r else None) with
  | Some _ => Ok {| data := <[Z.to_nat r := x]> (data this) |}
  | None => UB
  end.

End Array.
End Arr.

(** ** Functional.h *)

Module Fn.
Section Function.

(** [Function<R(Args...)>]; [Args] is the whole argument pack, [C] the class
    of the objects methods are bound to. A free function is its graph, a
    method reads and updates its receiver. *)
Context {R Args C : Type}.

(** [priv::Callable<R(Args...)>] and its two derived classes. *)
Inductive Callable : Type :=
  | FunctionCallable (m_functionPtr : Args -> R)
  | MemberCallable (m_objectReference : loc) (m_functionPtr : C -> Args -> R * C).

(** The callables allocated with [new], and the objects of class [C] of the
    client. *)
Record heap : Type := Heap {
  callables : gmap loc Callable;
  objects : gmap loc C
}.

(** [new] of a callable: a fresh address that holds it. Allocation failure
    is not modelled, the source does not test for it. *)
Definition new (c : Callable) : M heap loc := fun h =>
  let p := fresh (dom (callables h)) in
  Ok (p, Heap (<[p := c]> (callables h)) (objects h)).

(** [delete p]: nothing for [nullptr], undefined for an object that is not
    live. *)
Definition delete_ (p : option loc) : M heap unit := fun h =>
  match p with
  | None => Ok (tt, h)
  | Some q =>
      match callables h !! q with
      | Some _ => Ok (tt, Heap (delete q (callables h)) (objects h))
      | None => UB
      end
  end.

(** [*p], undefined for [nullptr] and for a deleted object. *)
Definition deref (p : option loc) : M heap Callable := fun h =>
  match p ≫= (fun q => callables h !! q) with
  | Some c => Ok (c, h)
  | None => UB
  end.

(** The virtual [Callable::copy]. *)
Definition copy (c : Callable) : M heap (option loc) :=
  match c with
  | FunctionCallable functionPtr =>
      p ← new (FunctionCallable functionPtr); mret (Some p)
  | MemberCallable objectReference functionPtr =>
      p ← new (MemberCallable objectReference functionPtr); mret (Some p)
  end.

(** The virtual [Callable::operator()]. Calling a method through a
    reference to an object that is gone is undefined. *)
Definition call (c : Callable) (args : Args) : M heap R :=
  match c with
  | FunctionCallable functionPtr => mret (functionPtr args)
  | MemberCallable objectReference functionPtr => fun h =>
      match objects h !! objectReference with
      | Some o =>
          let (r, o') := functionPtr o args in
          Ok (r, Heap (callables h) (<[objectReference := o']> (objects h)))
      | None => UB
      end
  end.

Record Function : Type := mkFunction { m_callable : option loc }.

(** [Function(R( *functionPtr)(Args...))] *)
Definition Function_of_pointer (functionPtr : Args -> R) : M heap Function :=
  p ← new (FunctionCallable functionPtr);
  mret {| m_callable := Some p |}.

(** [Function(Function& other)] and [Function(const Function& other)] *)
Definition Function_copy (other : Function) : M heap Function :=
  c ← deref (m_callable other);
  p ← copy c;
  mret {| m_callable := p |}.

(** The statements of [operator=], both overloads, up to the closing
    brace, and [this] as they leave it. [other] is read once, after the
    [delete] and before [m_callable] is written, so passing it by value
    loses nothing, also when it is [this] itself. *)
Definition Function_assign_body (this other : Function) : M heap Function :=
  (if decide (m_callable this <> None) then delete_ (m_callable this)
   else mret tt);;
  c ← deref (m_callable other);
  p ← copy c;
  mret {| m_callable := p |}.

(** [operator=], both overloads. They are declared to return [Function&]
    and have no [return] statement: control flows off the end of a function
    that owes its caller a value, which is undefined. *)
Definition Function_assign (this other : Function) : M heap Function :=
  this ← Function_assign_body this other;
  undefined.

(** [~Function()] *)
Definition Function_destroy (this : Function) : M heap unit :=
  delete_ (m_callable this).

(** [operator()] *)
Definition Function_call (this : Function) (args : Args) : M heap R :=
  c ← deref (m_callable this);
  call c args.

(** The private [Function(priv::Callable<R(Args...)>* callable)], which
    takes over the callable. *)
Definition Function_of_callable (callable : option loc) : Function :=
  {| m_callable := callable |}.

(** The two overloads of the static [bind]. *)
Definition bind (functionPtr : Args -> R) : M heap Function :=
  p ← new (FunctionCallable functionPtr);
  mret (Function_of_callable (Some p)).

Definition bind_member (objectRef : loc) (functionPtr : C -> Args -> R * C)
  : M heap Function :=
  p ← new (MemberCallable objectRef functionPtr);
  mret (Function_of_callable (Some p)).

(** What a client sees of a call: the value returned and its objects. *)
Definition observe (r : result (R * heap)) : result (R * gmap loc C) :=
  match r with
  | Ok (x, h) => Ok (x, objects h)
  | UB => UB
  end.

(** [copies n f]: [n] wrappers, each copy-constructed from the one before,
    the first from [f]. *)
Fixpoint copies (n : nat) (f : Function) : M heap (list Function) :=
  match n with
  | O => mret []
  | Datatypes.S n' => g ← Function_copy f; gs ← copies n' g; mret (g :: gs)
  end.

(** *** Client programs: a row of wrappers and the statements on them

    [Bind] and [BindMember] declare a wrapper at the end of the row, [Copy i]
    declares one copy-constructed from the [i]-th, [Assign i j] is
    [ws[i] = ws[j]], [Invoke i args] is [ws[i](args...)], and [Destroy i] ends
    the life of the [i]-th wrapper. A statement on an index past the end of
    the row does nothing. *)
Inductive stmt : Type :=
  | Bind (functionPtr : Args -> R)
  | BindMember (objectRef : loc) (functionPtr : C -> Args -> R * C)
  | Copy (i : nat)
  | Assign (i j : nat)
  | Invoke (i : nat) (args : Args)
  | Destroy (i : nat).

Definition exec (ws : list Function) (s : stmt) : M heap (list Function) :=
  match s with
  | Bind functionPtr => f ← bind functionPtr; mret (ws ++ [f])
  | BindMember objectRef functionPtr =>
      f ← bind_member objectRef functionPtr; mret (ws ++ [f])
  | Copy i =>
      match ws !! i with
      | Some f => g ← Function_copy f; mret (ws ++ [g])
      | None => mret ws
      end
  | Assign i j =>
      match ws !! i, ws !! j with
      | Some f, Some g => f ← Function_assign f g; mret (<[i := f]> ws)
      | _, _ => mret ws
      end
  | Invoke i args =>
      match ws !! i with
      | Some f => Function_call f args;; mret ws
      | None => mret ws
      end
  | Destroy i =>
      match ws !! i with
      | Some f => Function_destroy f;; mret (delete i ws)
      | None => mret ws
      end
  end.

Fixpoint exec_all (ss : list stmt) (ws : list Function)
  : M heap (list Function) :=
  match ss with
  | [] => mret ws
  | s :: ss => ws ← exec ws s; exec_all ss ws
  end.

(** Ownership is exclusive: every wrapper of the row owns a live callable,
    no two wrappers own the same one, and there are as many live callables
    as wrappers. *)
Definition exclusive (ws : list Function) (h : heap) : Prop :=
  (forall i f, ws !! i = Some f ->
     exists p c, m_callable f = Some p /\ callables h !! p = Some c)
  /\ (forall i j f g, ws !! i = Some f -> ws !! j = Some g ->
       m_callable f = m_callable g -> i = j)
  /\ size (callables h) = length ws.

(** The objects that bound methods refer to are there. *)
Definition bound_alive (h : heap) : Prop :=
  forall p o m, callables h !! p = Some (MemberCallable o m) ->
    o ∈ dom (objects h).

(** The statements a client can rely on: a method is bound to an object
    that is there, and nothing is assigned, for no [operator=] returns. *)
Definition admissible (alive : gset loc) (s : stmt) : Prop :=
  match s with
  | BindMember o _ => o ∈ alive
  | Assign _ _ => False
  | _ => True
  end.

End Function.

Arguments stmt : clear implicits.
Arguments Callable : clear implicits.
Arguments heap : clear implicits.

End Fn.

(** The free function of the example in Functional.h, on IEEE binary32. *)
Definition float : Type := spec_float.
Definition exampleFunction (values : float * float) : float :=
  SFmul 24 128 values.1 values.2.

(** [2.0f], [5.0f] and [10.0f]: a 24-bit mantissa and its exponent. *)
Definition float_2 : float := S754_finite false 8388608 (-22).
Definition float_5 : float := S754_finite false 10485760 (-21).
Definition float_10 : float := S754_finite false 10485760 (-20).

(** ** Sample states *)

(** A wrapper of [exampleFunction] and the heap that holds its callable. *)
Definition example_wrapper : Fn.Function := {| Fn.m_callable := Some 1%positive |}.
Definition example_callable : Fn.Callable float (float * float) unit :=
  Fn.FunctionCallable exampleFunction.
Definition example_heap : Fn.heap float (float * float) unit :=
  Fn.Heap {[1%positive := example_callable]} ∅.

(** A class with a counter [m_value] and a method that adds to it and
    returns the sum; an object of it with [m_value = 3] at address 7. *)
Definition accumulate (m_value : Z) (value : Z) : Z * Z :=
  (m_value + value, m_value + value).
Definition counter_heap : Fn.heap Z Z Z := Fn.Heap ∅ {[7%positive := 3]}.

(** A vector that holds [10] in a block of two slots. *)
Definition one_of_two : Vec.Vector :=
  {| Vec.m_data := Some 1%positive; Vec.m_size := 1; Vec.m_capacity := 2 |}.
Definition one_of_two_mem : Vec.mem nat :=
  Vec.Mem {[1%positive := [Vec.Obj 10%nat; Vec.Raw]]} [].

(** The vector and the heap that [pushBack] of 10, 20 and 30 on an empty
    vector leaves, on a 16-bit [size_t] with two-byte elements that have a
    trivial destructor. *)
Definition three_of_five : Vec.Vector :=
  {| Vec.m_data := Some 2%positive; Vec.m_size := 3; Vec.m_capacity := 5 |}.
Definition three_of_five_mem : Vec.mem nat :=
  Vec.Mem {[2%positive := [Vec.Obj 10; Vec.Obj 20; Vec.Obj 30; Vec.Raw;
                           Vec.Raw]%nat]}
          [Vec.EvNew 1%positive 4; Vec.EvNew 2%positive 10;
           Vec.EvDtor (Some 1%positive) 0; Vec.EvDtor (Some 1%positive) 1;
           Vec.EvDelete 1%positive].

(** A full vector: [10] and [20] in a block of two slots. *)
Definition two_of_two : Vec.Vector :=
  {| Vec.m_data := Some 1%positive; Vec.m_size := 2; Vec.m_capacity := 2 |}.
Definition two_of_two_mem : Vec.mem nat :=
  Vec.Mem {[1%positive := [Vec.Obj 10%nat; Vec.Obj 20%nat]]} [].

(** A second vector, that holds [7], in the heap of [one_of_two]. *)
Definition other_vector : Vec.Vector :=
  {| Vec.m_data := Some 5%positive; Vec.m_size := 1; Vec.m_capacity := 1 |}.
Definition shared_mem : Vec.mem nat :=
  Vec.Mem (<[5%positive := [Vec.Obj 7%nat]]>
             {[1%positive := [Vec.Obj 10%nat; Vec.Raw]]}) [].

(** An array of three. *)
Definition example_array : Arr.Array := Arr.mkArray [1; 2; 3]%nat.

(** A second wrapper of [exampleFunction], beside [example_wrapper]. *)
Definition second_wrapper : Fn.Function := {| Fn.m_callable := Some 2%positive |}.
Definition two_wrappers_heap : Fn.heap float (float * float) unit :=
  Fn.Heap (<[2%positive := example_callable]> {[1%positive := example_callable]})
          ∅.

(** A program on the counter at address 7: bind, copy, call the original,
    destroy it, call the copy. *)
Definition example_program : list (Fn.stmt Z Z Z) :=
  [Fn.BindMember 7%positive accumulate; Fn.Copy 0; Fn.Invoke 0 4;
   Fn.Destroy 0; Fn.Invoke 0 1].

(** * Properties *)

(** ** The monad and the loop *)

Lemma bind_Ok {S A B} (m : M S A) (f : A -> M S B) s a s' :
  m s = Ok (a, s') -> (m ≫= f) s = f a s'.
Proof. intros H. unfold mbind, M_bind. by rewrite H. Qed.

Lemma ret_Ok {S A} (a : A) (s : S) : (mret a : M S A) s = Ok (a, s).
Proof. reflexivity. Qed.

(** A loop whose body keeps [I] runs to its end and establishes [I] at the
    bound. *)
Lemma for_from_inv {S} (I : nat -> S -> Prop) (body : Z -> M S unit) n i0 s :
  I i0 s ->
  (forall k s, (i0 <= k < i0 + n)%nat -> I k s ->
     exists s', body (Z.of_nat k) s = Ok (tt, s') /\ I (Datatypes.S k) s') ->
  exists s', for_from n (Z.of_nat i0) body s = Ok (tt, s') /\ I (i0 + n)%nat s'.
Proof.
  revert i0 s. induction n as [|n IH]; intros i0 s H0 Hstep; simpl.
  - exists s. by rewrite Nat.add_0_r.
  - destruct (Hstep i0 s) as (s1 & Hb & H1); [lia | done |].
    rewrite (bind_Ok _ _ _ _ _ Hb).
    replace (Z.of_nat i0 + 1) with (Z.of_nat (Datatypes.S i0)) by lia.
    destruct (IH (Datatypes.S i0) s1 H1) as (s' & Hrun & HI).
    { intros k s2 Hk. apply Hstep. lia. }
    exists s'. split; [done |].
    by replace (i0 + Datatypes.S n)%nat with (Datatypes.S i0 + n)%nat by lia.
Qed.

Lemma for_loop_inv {S} (I : nat -> S -> Prop) (body : Z -> M S unit) n s :
  I O s ->
  (forall k s, (k < n)%nat -> I k s ->
     exists s', body (Z.of_nat k) s = Ok (tt, s') /\ I (Datatypes.S k) s') ->
  exists s', for_loop (Z.of_nat n) body s = Ok (tt, s') /\ I n s'.
Proof.
  intros H0 Hstep. unfold for_loop. rewrite Nat2Z.id.
  apply (for_from_inv I body n O s H0).
  intros k s1 Hk. apply Hstep. lia.
Qed.

(** ** Lists of slots *)

Section Slots.
Context {T : Type}.
Implicit Types (xs : list T) (cells : list (Vec.cell T)).

Lemma holds_lookup xs cells i x :
  take (length xs) cells = Vec.Obj <$> xs -> xs !! i = Some x ->
  cells !! i = Some (Vec.Obj x).
Proof.
  intros Htake Hx.
  rewrite <- (lookup_take_lt cells (length xs) i) by (by eapply lookup_lt_Some).
  by rewrite Htake, list_lookup_fmap, Hx.
Qed.

(** Writing the next object into a block that holds [xs]. *)
Lemma holds_snoc xs cells x :
  take (length xs) cells = Vec.Obj <$> xs -> (length xs < length cells)%nat ->
  take (length (xs ++ [x])) (<[length xs := Vec.Obj x]> cells)
  = Vec.Obj <$> (xs ++ [x]).
Proof.
  intros Htake Hlt. rewrite length_app. simpl.
  replace (length xs + 1)%nat with (Datatypes.S (length xs)) by lia.
  rewrite (take_S_r _ _ (Vec.Obj x)) by (by apply list_lookup_insert_eq).
  rewrite take_insert_ge by lia.
  by rewrite Htake, fmap_snoc.
Qed.

Lemma length_filled xs j n :
  (j <= length xs)%nat -> (j <= n)%nat -> length (Vec.filled xs j n) = n.
Proof.
  intros. unfold Vec.filled.
  rewrite length_app, length_fmap, length_take, length_replicate. lia.
Qed.

Lemma filled_step xs j n x :
  xs !! j = Some x -> (j < n)%nat ->
  <[j := Vec.Obj x]> (Vec.filled xs j n) = Vec.filled xs (Datatypes.S j) n.
Proof.
  intros Hx Hlt. unfold Vec.filled.
  assert (Hj : (j < length xs)%nat) by (by eapply lookup_lt_Some).
  assert (Hlen : length (Vec.Obj <$> take j xs) = j)
    by (rewrite length_fmap, length_take; lia).
  rewrite insert_app_r_alt by lia. rewrite Hlen, Nat.sub_diag.
  replace (n - j)%nat with (Datatypes.S (n - Datatypes.S j)) by lia.
  simpl. rewrite (take_S_r _ _ _ Hx), fmap_snoc, <- app_assoc. done.
Qed.

Lemma take_filled xs j n :
  (j <= length xs)%nat ->
  take (length (take j xs)) (Vec.filled xs j n) = Vec.Obj <$> take j xs.
Proof.
  intros. unfold Vec.filled.
  by rewrite take_app_length' by (by rewrite length_fmap).
Qed.

End Slots.

(** ** Vector: the memory operations *)

Section Memory.
Context {T : Type}.
Implicit Types (st : Vec.mem T) (cells : list (Vec.cell T)) (q : loc) (i : nat).

Lemma alter_at {A} (f : A -> A) (m : gmap loc A) q a :
  m !! q = Some a -> alter f q m = <[q := f a]> m.
Proof.
  intros Hq. rewrite <- (insert_id m q a Hq) at 1. apply alter_insert_eq.
Qed.

Lemma slot_in st q cells i :
  Vec.blocks st !! q = Some cells ->
  Vec.slot (Some q) (Z.of_nat i) st = cells !! i.
Proof.
  intros Hq. unfold Vec.slot. simpl. rewrite Hq. simpl.
  rewrite decide_True by lia. by rewrite Nat2Z.id.
Qed.

Lemma store_Ok st q cells i x :
  Vec.blocks st !! q = Some cells -> (i < length cells)%nat ->
  Vec.store (Some q) (Z.of_nat i) x st
  = Ok (tt, Vec.Mem (<[q := <[i := Vec.Obj x]> cells]> (Vec.blocks st))
                    (Vec.trace st)).
Proof.
  intros Hq Hi. unfold Vec.store. rewrite (slot_in _ _ _ _ Hq).
  destruct (lookup_lt_is_Some_2 cells i Hi) as [c ->].
  by rewrite Nat2Z.id, (alter_at _ _ _ _ Hq).
Qed.

Lemma load_Ok st q cells i x :
  Vec.blocks st !! q = Some cells -> cells !! i = Some (Vec.Obj x) ->
  Vec.load (Some q) (Z.of_nat i) st = Ok (x, st).
Proof.
  intros Hq Hi. unfold Vec.load. by rewrite (slot_in _ _ _ _ Hq), Hi.
Qed.

(** A destructor call inside or outside the block: the slot, if any, is
    dead afterwards, and the call is in the trace. *)
Lemma destroy_Ok st q cells i :
  Vec.blocks st !! q = Some cells ->
  Vec.destroy (Some q) (Z.of_nat i) st
  = Ok (tt, Vec.Mem (<[q := <[i := Vec.Dead]> cells]> (Vec.blocks st))
                    (Vec.trace st ++ [Vec.EvDtor (Some q) (Z.of_nat i)])).
Proof.
  intros Hq. unfold Vec.destroy. rewrite (slot_in _ _ _ _ Hq).
  destruct (cells !! i) as [c|] eqn:Hi.
  - by rewrite Nat2Z.id, (alter_at _ _ _ _ Hq).
  - apply lookup_ge_None in Hi.
    by rewrite list_insert_ge, insert_id.
Qed.

(** [delete[]] of a live block, for an element type with a trivial
    destructor. *)
Lemma delete_array_Ok st q cells :
  Vec.blocks st !! q = Some cells ->
  Vec.delete_array true (Some q) st
  = Ok (tt, Vec.Mem (delete q (Vec.blocks st))
                    (Vec.trace st ++ [Vec.EvDelete q])).
Proof. intros Hq. unfold Vec.delete_array. by rewrite Hq. Qed.

Lemma value_of_Outside (x : T) st : Vec.value_of (Vec.Outside x) st = Ok (x, st).
Proof. reflexivity. Qed.

Lemma fresh_block st : Vec.blocks st !! fresh (dom (Vec.blocks st)) = None.
Proof. apply not_elem_of_dom, is_fresh. Qed.

End Memory.

(** ** Vector: the methods on a vector that holds a list *)

Section VectorFacts.
Context {T : Type}.
Variables size_bits sizeof_T : Z.
Variable trivially_destructible : bool.
Hypothesis sizeof_T_pos : 0 < sizeof_T.

Abbreviation repr := (Vec.repr size_bits).
Abbreviation allocatable := (Vec.allocatable size_bits sizeof_T).
Abbreviation reAllocate :=
  (Vec.reAllocate size_bits sizeof_T trivially_destructible).
Implicit Types (this : Vec.Vector) (st : Vec.mem T) (xs : list T).

Lemma allocatable_wrap c :
  allocatable c -> Vec.wrap size_bits (c * sizeof_T) = c * sizeof_T.
Proof. intros [H0 H1]. unfold Vec.wrap. apply Z.mod_small. nia. Qed.

Lemma allocatable_size c : allocatable c -> 0 <= c < 2 ^ size_bits.
Proof. intros [H0 H1]. nia. Qed.

Lemma operator_new_Ok st c :
  allocatable c ->
  Vec.operator_new sizeof_T (Vec.wrap size_bits (c * sizeof_T)) st
  = Ok (fresh (dom (Vec.blocks st)),
        Vec.Mem (<[fresh (dom (Vec.blocks st)) := replicate (Z.to_nat c) Vec.Raw]>
                   (Vec.blocks st))
                (Vec.trace st ++ [Vec.EvNew (fresh (dom (Vec.blocks st)))
                                            (c * sizeof_T)])).
Proof.
  intros Hc. unfold Vec.operator_new. rewrite (allocatable_wrap _ Hc).
  by rewrite Z.div_mul by lia.
Qed.

(** A reallocation goes through where [delete[]] has nothing to delete or
    the element type has a trivial destructor. *)
Lemma reAllocate_spec this st xs newCapacity :
  repr this st xs -> allocatable newCapacity ->
  trivially_destructible = true \/ Vec.m_data this = None ->
  let p := fresh (dom (Vec.blocks st)) in
  let v := {| Vec.m_data := Some p;
              Vec.m_size := Z.min newCapacity (Vec.m_size this);
              Vec.m_capacity := newCapacity |} in
  let kept := take (Z.to_nat newCapacity) xs in
  exists st',
    reAllocate this newCapacity st = Ok (v, st')
    /\ repr v st' kept
    /\ Vec.trace st'
       = Vec.trace st
         ++ Vec.reallocation sizeof_T (Vec.m_data this) p (length kept) newCapacity.
Proof.
  intros Hrepr Halloc Hdel p v kept.
  pose proof (allocatable_size _ Halloc) as Hcap.
  destruct Hrepr as [Hsize Hle Hfit Hblock].
  set (n := Z.to_nat newCapacity).
  set (k := length kept).
  assert (Hk : k = min n (length xs)) by (unfold k, kept; apply length_take).
  assert (Hclamp : (if decide (newCapacity < Vec.m_size this) then newCapacity
                    else Vec.m_size this) = Z.of_nat k).
  { case_decide; lia. }
  assert (Hv : Z.min newCapacity (Vec.m_size this) = Z.of_nat k) by lia.
  unfold reAllocate.
  rewrite (bind_Ok _ _ _ _ _ (operator_new_Ok st newCapacity Halloc)).
  fold p. fold n. rewrite Hclamp.
  assert (Hkept : take k xs = kept).
  { unfold kept. fold n. rewrite Hk.
    destruct (Nat.le_ge_cases n (length xs)).
    - by rewrite Nat.min_l.
    - by rewrite Nat.min_r, !take_ge by lia. }
  assert (Hkn : (k <= n)%nat) by lia.
  assert (Hkxs : (k <= length xs)%nat) by lia.
  set (tr1 := Vec.trace st ++ [Vec.EvNew p (newCapacity * sizeof_T)]).
  replace (replicate n Vec.Raw) with (Vec.filled xs 0 n)
    by (unfold Vec.filled; simpl; by rewrite Nat.sub_0_r).
  destruct (Vec.m_data this) as [q|] eqn:Hdata.
  - (* the vector owns a block *)
    destruct Hdel as [->|Hnone]; [|congruence].
    unfold Vec.block_holds in Hblock. rewrite Hdata in Hblock.
    destruct Hblock as (cells & Hq & Hlen & Htake).
    assert (Hpq : p <> q).
    { intros Heq. pose proof (fresh_block st) as Hf. fold p in Hf.
      rewrite Heq in Hf. congruence. }
    destruct (for_loop_inv
      (fun j s => s = Vec.Mem (<[p := Vec.filled xs j n]> (Vec.blocks st)) tr1)
      (fun i => x ← Vec.load (Some q) i; Vec.store (Some p) i x) k
      (Vec.Mem (<[p := Vec.filled xs 0 n]> (Vec.blocks st)) tr1))
      as (s1 & Hmove & ->); [done | |].
    { intros j s Hj ->.
      destruct (lookup_lt_is_Some_2 xs j) as [x Hx]; [lia |].
      eexists. split; [|reflexivity].
      erewrite bind_Ok; cycle 1.
      { eapply load_Ok; simpl.
        - by rewrite lookup_insert_ne.
        - by eapply holds_lookup. }
      erewrite store_Ok; cycle 1.
      { simpl. apply lookup_insert_eq. }
      { rewrite length_filled; lia. }
      simpl. by rewrite insert_insert_eq, (filled_step _ _ _ _ Hx) by lia. }
    rewrite (bind_Ok _ _ _ _ _ Hmove).
    set (B1 := <[p := Vec.filled xs k n]> (Vec.blocks st)).
    destruct (for_loop_inv
      (fun j s => exists cells',
         s = Vec.Mem (<[q := cells']> B1)
               (tr1 ++ (Vec.EvDtor (Some q) <$> seqZ 0 (Z.of_nat j))))
      (fun i => Vec.destroy (Some q) i) k (Vec.Mem B1 tr1))
      as (s2 & Hdestroy & cells' & ->).
    { exists cells. simpl. rewrite app_nil_r, insert_id; [done |].
      unfold B1. by rewrite lookup_insert_ne. }
    { intros j s Hj (cells1 & ->).
      eexists. split.
      - eapply destroy_Ok. simpl. apply lookup_insert_eq.
      - exists (<[j := Vec.Dead]> cells1). simpl.
        rewrite insert_insert_eq, seqZ_S, fmap_app, app_assoc. done. }
    rewrite (bind_Ok _ _ _ _ _ Hdestroy).
    erewrite bind_Ok; cycle 1.
    { eapply delete_array_Ok. simpl. apply lookup_insert_eq. }
    simpl. rewrite ret_Ok. eexists. split; [unfold v; by rewrite Hv |]. split.
    + split; simpl; [unfold k in Hv; lia | lia | lia |].
      unfold Vec.block_holds. simpl. exists (Vec.filled xs k n). split.
      { rewrite delete_insert_eq. unfold B1.
        by rewrite lookup_delete_ne, lookup_insert_eq. }
      split; [rewrite length_filled; lia |].
      rewrite <- Hkept. by apply take_filled.
    + unfold Vec.reallocation, tr1. rewrite <- !app_assoc. done.
  - (* the vector owns nothing: there is nothing to move *)
    assert (xs = []) as ->.
    { unfold Vec.block_holds in Hblock. rewrite Hdata in Hblock.
      apply length_zero_iff_nil. lia. }
    assert (Hk0 : k = O) by (simpl in Hkxs; lia).
    rewrite Hk0. unfold for_loop. simpl.
    eexists. split; [unfold v; by rewrite Hv, Hk0 |]. split.
    + split; simpl; [lia | lia | lia |].
      unfold Vec.block_holds. simpl. exists (Vec.filled [] 0 n). split.
      { apply lookup_insert_eq. }
      split; [rewrite length_filled; simpl; lia |].
      unfold kept. by rewrite take_nil.
    + unfold Vec.reallocation, tr1. done.
Qed.

(** Where [delete[]] has a block to delete and the element type has a
    destructor, no reallocation returns. *)
Lemma reAllocate_aborts this st q newCapacity :
  trivially_destructible = false -> Vec.m_data this = Some q ->
  reAllocate this newCapacity st = UB.
Proof.
  intros -> Hq. unfold Vec.reAllocate, mbind, M_bind. rewrite Hq.
  destruct (Vec.operator_new _ _ st) as [[p s1]|]; [|done].
  destruct (for_loop _ _ s1) as [[[] s2]|]; [|done].
  by destruct (for_loop _ _ s2) as [[[] s3]|].
Qed.

Abbreviation pushBack :=
  (Vec.pushBack size_bits sizeof_T trivially_destructible).
Abbreviation popBack := (Vec.popBack size_bits).
Abbreviation grow := (Vec.grow size_bits).

(** So [pushBack] on a full vector with a block does not return either. *)
Lemma pushBack_aborts this st q value :
  trivially_destructible = false -> Vec.m_data this = Some q ->
  Vec.m_size this >= Vec.m_capacity this ->
  pushBack this value st = UB.
Proof.
  intros Htriv Hq Hfull. unfold Vec.pushBack. rewrite decide_True by done.
  unfold mbind at 1, M_bind at 1.
  by rewrite (reAllocate_aborts _ _ q _ Htriv Hq).
Qed.

Lemma repr_owner this st xs :
  repr this st xs -> 0 < Vec.m_capacity this ->
  exists q cells, Vec.m_data this = Some q
    /\ Vec.blocks st !! q = Some cells
    /\ Z.of_nat (length cells) = Vec.m_capacity this
    /\ take (length xs) cells = Vec.Obj <$> xs.
Proof.
  intros [_ _ _ Hb] Hpos. unfold Vec.block_holds in Hb.
  destruct (Vec.m_data this) as [q|]; [|lia].
  destruct Hb as (cells & ?). by exists q, cells.
Qed.

(** The assignment [m_data[m_size] = value; m_size++] where there is room. *)
Lemma store_back this st xs x :
  repr this st xs -> Vec.m_size this < Vec.m_capacity this ->
  exists st',
    Vec.store (Vec.m_data this) (Vec.m_size this) x st = Ok (tt, st')
    /\ repr {| Vec.m_data := Vec.m_data this;
               Vec.m_size := Vec.wrap size_bits (Vec.m_size this + 1);
               Vec.m_capacity := Vec.m_capacity this |} st' (xs ++ [x])
    /\ Vec.trace st' = Vec.trace st.
Proof.
  intros Hrepr Hroom.
  destruct (repr_owner _ _ _ Hrepr) as (q & cells & Hdata & Hq & Hlen & Htake);
    [destruct Hrepr; lia |].
  destruct Hrepr as [Hsize Hle Hfit _].
  rewrite Hdata, Hsize. eexists. split; [|split].
  - apply (store_Ok _ _ _ _ _ Hq). lia.
  - split; simpl.
    + unfold Vec.wrap. rewrite Z.mod_small by lia. rewrite length_app. simpl. lia.
    + unfold Vec.wrap. rewrite Z.mod_small by lia. lia.
    + done.
    + unfold Vec.block_holds. simpl. eexists. split; [apply lookup_insert_eq |].
      split; [by rewrite length_insert |].
      apply holds_snoc; [done | lia].
  - done.
Qed.

Lemma grow_exact c :
  0 <= c -> allocatable (c + c / 2 + 2) -> grow c = c + c / 2 + 2.
Proof.
  intros Hc Ha. apply allocatable_size in Ha.
  assert (0 <= c / 2) by (apply Z.div_pos; lia).
  unfold Vec.grow, Vec.wrap. rewrite (Z.mod_small (c + c / 2)) by lia.
  apply Z.mod_small. lia.
Qed.

Lemma pushBack_spec this st xs x :
  repr this st xs ->
  (Vec.m_size this = Vec.m_capacity this ->
   allocatable (Vec.m_capacity this + Vec.m_capacity this / 2 + 2)
   /\ (trivially_destructible = true \/ Vec.m_data this = None)) ->
  exists v st',
    pushBack this (Vec.Outside x) st = Ok (v, st')
    /\ repr v st' (xs ++ [x])
    /\ if decide (Vec.m_size this = Vec.m_capacity this) then
         Vec.m_capacity v = Vec.m_capacity this + Vec.m_capacity this / 2 + 2
         /\ Vec.m_data v = Some (fresh (dom (Vec.blocks st)))
         /\ Vec.trace st'
            = Vec.trace st
              ++ Vec.reallocation sizeof_T (Vec.m_data this)
                   (fresh (dom (Vec.blocks st))) (length xs) (Vec.m_capacity v)
       else
         Vec.m_capacity v = Vec.m_capacity this
         /\ Vec.m_data v = Vec.m_data this
         /\ Vec.trace st' = Vec.trace st.
Proof.
  intros Hrepr Halloc. pose proof Hrepr as [Hsize Hle Hfit _].
  unfold Vec.pushBack. case_decide as Hfull.
  - (* no room: reallocate, then store *)
    assert (Heq : Vec.m_size this = Vec.m_capacity this) by lia.
    destruct (Halloc Heq) as [Ha Hdel]. clear Halloc.
    rewrite grow_exact by (done || lia).
    set (c := Vec.m_capacity this + Vec.m_capacity this / 2 + 2) in *.
    assert (0 <= Vec.m_capacity this / 2) by (apply Z.div_pos; lia).
    destruct (reAllocate_spec _ _ _ c Hrepr Ha Hdel) as (st1 & Hre & Hrepr1 & Htr1).
    rewrite take_ge in Hrepr1, Htr1 by lia.
    rewrite (bind_Ok _ _ _ _ _ Hre).
    rewrite (bind_Ok _ _ _ _ _ (value_of_Outside x st1)).
    destruct (store_back _ _ _ x Hrepr1) as (st2 & Hst & Hrepr2 & Htr2);
      [simpl; lia |].
    simpl in Hst. rewrite (bind_Ok _ _ _ _ _ Hst), ret_Ok.
    eexists _, st2. split; [done |]. split; [done |].
    rewrite decide_True by done. simpl. by rewrite Htr2.
  - (* room left: store in place *)
    rewrite (bind_Ok _ _ _ this st) by done.
    rewrite (bind_Ok _ _ _ _ _ (value_of_Outside x st)).
    destruct (store_back _ _ _ x Hrepr) as (st2 & Hst & Hrepr2 & Htr2); [lia |].
    rewrite (bind_Ok _ _ _ _ _ Hst), ret_Ok.
    eexists _, st2. split; [done |]. split; [done |].
    by rewrite decide_False by lia.
Qed.

Lemma popBack_spec this st xs :
  repr this st xs ->
  exists v st',
    popBack this st = Ok (v, st')
    /\ repr v st' (removelast xs)
    /\ Vec.m_capacity v = Vec.m_capacity this
    /\ Vec.m_data v = Vec.m_data this.
Proof.
  intros Hrepr. pose proof Hrepr as [Hsize Hle Hfit _].
  unfold Vec.popBack. case_decide as Hne.
  - destruct (repr_owner _ _ _ Hrepr) as (q & cells & Hdata & Hq & Hlen & Htake);
      [lia |].
    set (n := Nat.pred (length xs)).
    assert (Hn : Vec.wrap size_bits (Vec.m_size this - 1) = Z.of_nat n).
    { unfold Vec.wrap. rewrite Z.mod_small by lia. lia. }
    simpl. rewrite Hn, Hdata.
    rewrite (bind_Ok _ _ _ _ _ (destroy_Ok _ _ _ n Hq)), ret_Ok.
    eexists _, _. split; [done |]. split; [|done].
    rewrite removelast_firstn_len. fold n.
    split; simpl.
    + rewrite length_take. lia.
    + lia.
    + done.
    + unfold Vec.block_holds. simpl. eexists. split; [apply lookup_insert_eq |].
      split; [by rewrite length_insert |].
      rewrite length_take, Nat.min_l by lia.
      rewrite take_insert_ge by lia.
      rewrite fmap_take, <- Htake, take_take. f_equal. lia.
  - assert (xs = []) as -> by (apply length_zero_iff_nil; lia).
    by exists this, st.
Qed.

Lemma clear_spec this st xs :
  repr this st xs ->
  exists st',
    Vec.clear this st
    = Ok ({| Vec.m_data := Vec.m_data this; Vec.m_size := 0;
             Vec.m_capacity := Vec.m_capacity this |}, st')
    /\ repr {| Vec.m_data := Vec.m_data this; Vec.m_size := 0;
               Vec.m_capacity := Vec.m_capacity this |} st' []
    /\ Vec.trace st'
       = Vec.trace st
         ++ replicate (length xs) (Vec.EvDtor (Vec.m_data this) (Vec.m_size this))
    /\ dom (Vec.blocks st') = dom (Vec.blocks st)
    /\ forall i x, xs !! i = Some x ->
         Vec.slot (Vec.m_data this) (Z.of_nat i) st' = Some (Vec.Obj x).
Proof.
  intros Hrepr. pose proof Hrepr as [Hsize Hle Hfit Hblock].
  unfold Vec.clear. unfold Vec.block_holds in Hblock.
  destruct (Vec.m_data this) as [q|] eqn:Hdata.
  - destruct Hblock as (cells & Hq & Hlen & Htake).
    rewrite Hsize.
    destruct (for_loop_inv
      (fun j s => exists cells',
         s = Vec.Mem (<[q := cells']> (Vec.blocks st))
               (Vec.trace st
                ++ replicate j (Vec.EvDtor (Some q) (Z.of_nat (length xs))))
         /\ length cells' = length cells
         /\ take (length xs) cells' = Vec.Obj <$> xs)
      (fun i => Vec.destroy (Some q) (Z.of_nat (length xs))) (length xs) st)
      as (s1 & Hloop & cells' & -> & Hlen' & Htake').
    { exists cells. simpl. rewrite app_nil_r, insert_id by done.
      by destruct st. }
    { intros j s Hj (cells1 & -> & Hlen1 & Htake1).
      eexists. split.
      - eapply destroy_Ok. simpl. apply lookup_insert_eq.
      - exists (<[length xs := Vec.Dead]> cells1).
        rewrite replicate_S_end, app_assoc. simpl. rewrite insert_insert_eq.
        split; [done |]. split; [by rewrite length_insert |].
        by rewrite take_insert_ge by lia. }
    rewrite (bind_Ok _ _ _ _ _ Hloop), ret_Ok.
    eexists. split; [done |]. split; [|split; [done |split]].
    + split; simpl; [done | lia | done |].
      unfold Vec.block_holds. simpl. exists cells'.
      split; [apply lookup_insert_eq |]. split; [lia | done].
    + simpl. by apply dom_insert_lookup_L.
    + intros i x Hx. erewrite slot_in by (simpl; apply lookup_insert_eq).
      by eapply holds_lookup.
  - assert (xs = []) as -> by (apply length_zero_iff_nil; lia).
    rewrite Hsize. simpl. unfold for_loop. simpl.
    exists st. split; [done |]. split; [|split; [|split]].
    + split; simpl; [done | lia | done |]. unfold Vec.block_holds. by simpl.
    + by rewrite app_nil_r.
    + done.
    + intros i x Hx. done.
Qed.

(** [Vector(initialCapacity)] is empty, with a block of that capacity. *)
Lemma Vector_with_capacity_spec st initialCapacity :
  allocatable initialCapacity ->
  exists v st',
    Vec.Vector_with_capacity size_bits sizeof_T trivially_destructible
      initialCapacity st = Ok (v, st')
    /\ repr v st' [] /\ Vec.m_capacity v = initialCapacity.
Proof.
  intros Ha. pose proof (allocatable_size _ Ha) as Hc.
  destruct (reAllocate_spec Vec.Vector_new st [] initialCapacity)
    as (st' & Hre & Hrepr & _); [by split; simpl; try lia | done | by right |].
  rewrite take_nil in Hrepr. by eexists _, st'.
Qed.

(** [~Vector()] gives the block back, and only that. *)
Lemma Vector_destroy_spec this st xs p :
  repr this st xs -> Vec.m_data this = Some p ->
  exists st', Vec.Vector_destroy true this st = Ok (tt, st')
    /\ dom (Vec.blocks st') = dom (Vec.blocks st) ∖ {[p]}.
Proof.
  intros Hrepr Hp.
  destruct (clear_spec this st xs Hrepr) as (st1 & Hclear & Hrepr1 & _ & Hdom & _).
  destruct Hrepr1 as [_ _ _ Hb]. unfold Vec.block_holds in Hb. simpl in Hb.
  rewrite Hp in Hb. destruct Hb as (cells & Hq & _).
  unfold Vec.Vector_destroy. rewrite (bind_Ok _ _ _ _ _ Hclear). simpl.
  rewrite Hp, (delete_array_Ok _ _ _ Hq). eexists. split; [done |]. simpl.
  by rewrite dom_delete_L, Hdom.
Qed.

End VectorFacts.

(** ** Vector and Array: what clients can rely on *)

Section VectorClaims.
Context {T : Type}.
Variables size_bits sizeof_T : Z.
Variable trivially_destructible : bool.
Hypothesis sizeof_T_pos : 0 < sizeof_T.

Abbreviation repr := (Vec.repr size_bits).
Abbreviation allocatable := (Vec.allocatable size_bits sizeof_T).
Abbreviation reAllocate :=
  (Vec.reAllocate size_bits sizeof_T trivially_destructible).
Abbreviation pushBack :=
  (Vec.pushBack size_bits sizeof_T trivially_destructible).
Abbreviation pushBack_all :=
  (Vec.pushBack_all size_bits sizeof_T trivially_destructible).
Abbreviation run := (Vec.run size_bits sizeof_T trivially_destructible).
Implicit Types (this v : Vec.Vector) (st : Vec.mem T) (xs : list T).
Implicit Types (ops : list (Vec.op T)).

Lemma allocatable_mono c c' :
  0 <= c' <= c -> allocatable c -> allocatable c'.
Proof. intros Hc [H0 H1]. split; [lia | nia]. Qed.

Lemma repr_new st : 0 < 2 ^ size_bits -> repr Vec.Vector_new st [].
Proof. intros Hw. split; simpl; try done. Qed.

Lemma get_spec this st xs i x :
  repr this st xs -> xs !! i = Some x ->
  Vec.get this (Z.of_nat i) st = Ok (Vec.Obj x, st).
Proof.
  intros Hrepr Hx. apply lookup_lt_Some in Hx as Hi.
  destruct (repr_owner _ _ _ _ Hrepr) as (q & cells & Hdata & Hq & Hlen & Htake).
  { destruct Hrepr. lia. }
  unfold Vec.get, Vec.operator_index.
  assert (Href : forall b : M (Vec.mem T) unit, b = mret tt ->
            (b ;; mret (Vec.m_data this, Z.of_nat i)) st
            = Ok ((Vec.m_data this, Z.of_nat i), st)) by (by intros b ->).
  erewrite bind_Ok; [| apply Href; by case_decide].
  unfold Vec.read. simpl. rewrite Hdata, (slot_in _ _ _ _ Hq).
  by rewrite (holds_lookup _ _ _ _ Htake Hx).
Qed.

Lemma step_spec this st xs o bound :
  trivially_destructible = true ->
  repr this st xs -> (length (Vec.expected xs [o]) <= bound)%nat ->
  allocatable (Vec.capacity_bound bound) ->
  exists v st',
    Vec.step size_bits sizeof_T trivially_destructible this o st = Ok (v, st')
    /\ repr v st' (Vec.expected xs [o]).
Proof.
  intros Htriv Hrepr Hlen Halloc. destruct o as [x| |]; simpl.
  - destruct (pushBack_spec size_bits sizeof_T trivially_destructible
                sizeof_T_pos this st xs x Hrepr)
      as (v & st' & Hpush & Hrepr' & _).
    { intros Hfull. split; [|by left]. destruct Hrepr as [Hsize _ _ _].
      simpl in Hlen. rewrite length_app in Hlen. simpl in Hlen.
      apply (allocatable_mono (Vec.capacity_bound bound)); [|done].
      unfold Vec.capacity_bound.
      assert (0 <= Vec.m_capacity this / 2) by (apply Z.div_pos; lia).
      assert (Vec.m_capacity this / 2 <= Z.of_nat bound / 2)
        by (apply Z.div_le_mono; lia).
      lia. }
    by exists v, st'.
  - destruct (popBack_spec size_bits this st xs Hrepr)
      as (v & st' & Hpop & Hrepr' & _).
    by exists v, st'.
  - destruct (clear_spec size_bits this st xs Hrepr) as (st' & Hclear & Hrepr' & _).
    by eexists _, st'.
Qed.

Lemma peak_ge n ops : (n <= Vec.peak n ops)%nat.
Proof.
  revert n. induction ops as [|[x| |] ops IH]; intros n; simpl.
  - lia.
  - specialize (IH (Datatypes.S n)). lia.
  - lia.
  - lia.
Qed.

Lemma peak_step xs o ops :
  (length (Vec.expected xs [o]) <= Vec.peak (length xs) (o :: ops))%nat
  /\ (Vec.peak (length (Vec.expected xs [o])) ops
      <= Vec.peak (length xs) (o :: ops))%nat.
Proof.
  destruct o as [x| |]; simpl.
  - rewrite length_app. simpl. rewrite Nat.add_1_r. split; [apply peak_ge | done].
  - replace (length (removelast xs)) with (Nat.pred (length xs))
      by (rewrite removelast_firstn_len, length_take; lia).
    lia.
  - lia.
Qed.

(** Any interleaving on elements with a trivial destructor runs to its
    end, on a vector that holds what the client expects. *)
Lemma run_spec ops this st xs bound :
  trivially_destructible = true ->
  repr this st xs -> (Vec.peak (length xs) ops <= bound)%nat ->
  allocatable (Vec.capacity_bound bound) ->
  exists v st',
    run ops this st = Ok (v, st') /\ repr v st' (Vec.expected xs ops).
Proof.
  intros Htriv. revert this st xs.
  induction ops as [|o ops IH]; intros this st xs Hrepr Hlen Ha.
  - by exists this, st.
  - destruct (peak_step xs o ops) as [Hnow Hlater].
    destruct (step_spec this st xs o bound Htriv Hrepr)
      as (v1 & st1 & Hstep & Hrepr1); [lia | done |].
    destruct (IH v1 st1 (Vec.expected xs [o]) Hrepr1)
      as (v & st' & Hrun & Hrepr'); [lia | done |].
    exists v, st'. split.
    + simpl. by rewrite (bind_Ok _ _ _ _ _ Hstep).
    + by destruct o.
Qed.

Lemma peak_pushes n (ys : list T) :
  Vec.peak n (Vec.Push <$> ys) = (n + length ys)%nat.
Proof.
  revert n. induction ys as [|y ys IH]; intros n; simpl; [lia |].
  rewrite IH. lia.
Qed.

Lemma pushBack_all_run xs this st :
  pushBack_all xs this st = run (Vec.Push <$> xs) this st.
Proof.
  revert this st. induction xs as [|x xs IH]; intros this st; [done |].
  simpl.
  destruct (pushBack this (Vec.Outside x) st) as [[v st1]|] eqn:Hpush.
  - rewrite !(bind_Ok _ _ _ _ _ Hpush). apply IH.
  - unfold mbind, M_bind. by rewrite Hpush.
Qed.

Lemma expected_pushes xs ys : Vec.expected xs (Vec.Push <$> ys) = xs ++ ys.
Proof.
  revert xs. induction ys as [|y ys IH]; intros xs; simpl.
  - by rewrite app_nil_r.
  - by rewrite IH, <- app_assoc.
Qed.

Lemma allocatable_width c : allocatable c -> 0 < 2 ^ size_bits.
Proof. intros [H0 H1]. nia. Qed.

(** The round trip, for elements with a trivial destructor: [pushBack] of
    each of a list of values in turn on an empty vector, then [operator[]]
    at the indices [0 .. n-1], reads the values back in the order they were
    appended. The capacities on the way must be within what [size_t] can
    count in bytes. *)
Theorem pushBack_index_roundtrip xs st :
  trivially_destructible = true ->
  allocatable (Vec.capacity_bound (length xs)) ->
  exists v st',
    pushBack_all xs Vec.Vector_new st = Ok (v, st')
    /\ Vec.getSize v = Z.of_nat (length xs)
    /\ forall i x, xs !! i = Some x ->
         Vec.get v (Z.of_nat i) st' = Ok (Vec.Obj x, st').
Proof.
  intros Htriv Ha.
  destruct (run_spec (Vec.Push <$> xs) Vec.Vector_new st [] (length xs) Htriv)
    as (v & st' & Hrun & Hrepr).
  { apply repr_new. by eapply allocatable_width. }
  { by rewrite peak_pushes. }
  { done. }
  rewrite expected_pushes in Hrepr. simpl in Hrepr.
  exists v, st'. split; [by rewrite pushBack_all_run |]. split.
  - by destruct Hrepr.
  - intros i x Hx. by eapply get_spec.
Qed.

(** The invariant, for elements with a trivial destructor: after any
    interleaving of [pushBack], [popBack] and [clear] on an empty vector,
    [m_size <= m_capacity], and every index below [m_size] reads the value
    a client expects there: the values appended, in order, less those
    removed from the end. The capacity for the most elements held at a time
    must be within what [size_t] can count in bytes. *)
Theorem run_invariant ops st :
  trivially_destructible = true ->
  allocatable (Vec.capacity_bound (Vec.peak 0 ops)) ->
  exists v st',
    run ops Vec.Vector_new st = Ok (v, st')
    /\ Vec.m_size v <= Vec.m_capacity v
    /\ Vec.getSize v = Z.of_nat (length (Vec.expected [] ops))
    /\ forall i, 0 <= i < Vec.m_size v ->
         exists x, Vec.expected [] ops !! Z.to_nat i = Some x
           /\ Vec.get v i st' = Ok (Vec.Obj x, st').
Proof.
  intros Htriv Ha.
  destruct (run_spec ops Vec.Vector_new st [] (Vec.peak 0 ops) Htriv)
    as (v & st' & Hrun & Hrepr);
    [apply repr_new; by eapply allocatable_width | done | done |].
  exists v, st'. split; [done |].
  pose proof Hrepr as [Hsize Hle _ _].
  split; [done |]. split; [done |].
  intros i Hi.
  destruct (lookup_lt_is_Some_2 (Vec.expected [] ops) (Z.to_nat i)) as [x Hx];
    [lia |].
  exists x. split; [done |].
  rewrite <- (Z2Nat.id i) at 1 by lia. by eapply get_spec.
Qed.

(** C6. [clear] calls the destructor [m_size] times on the slot at index
    [m_size], one past the last element; the elements at [0 .. m_size-1]
    are not destroyed and stay in their slots. *)
Theorem clear_destroys_past_the_end this st xs :
  repr this st xs ->
  exists v st',
    Vec.clear this st = Ok (v, st')
    /\ Vec.trace st'
       = Vec.trace st
         ++ replicate (length xs) (Vec.EvDtor (Vec.m_data this) (Vec.m_size this))
    /\ forall i x, xs !! i = Some x ->
         Vec.slot (Vec.m_data this) (Z.of_nat i) st' = Some (Vec.Obj x).
Proof.
  intros Hrepr.
  destruct (clear_spec size_bits this st xs Hrepr) as (st' & Hclear & _ & Htr & _ & Hlive).
  by eexists _, st'.
Qed.

(** What [clear] does keep of its contract: the vector is empty afterwards,
    on the same block with the same capacity, nothing is deallocated, and
    the next [pushBack] goes through. *)
Lemma clear_retains this st xs x :
  repr this st xs ->
  (Vec.m_capacity this = 0 ->
   allocatable 2
   /\ (trivially_destructible = true \/ Vec.m_data this = None)) ->
  exists v st',
    Vec.clear this st = Ok (v, st')
    /\ Vec.getSize v = 0 /\ Vec.isEmpty v = true
    /\ Vec.m_capacity v = Vec.m_capacity this
    /\ Vec.m_data v = Vec.m_data this
    /\ dom (Vec.blocks st') = dom (Vec.blocks st)
    /\ exists v' st'',
         pushBack v (Vec.Outside x) st' = Ok (v', st'') /\ repr v' st'' [x].
Proof.
  intros Hrepr Ha.
  destruct (clear_spec size_bits this st xs Hrepr)
    as (st' & Hclear & Hrepr' & _ & Hdom & _).
  eexists _, st'. split; [done |].
  split; [done |]. split; [done |]. split; [done |]. split; [done |].
  split; [exact Hdom |].
  destruct (pushBack_spec size_bits sizeof_T trivially_destructible sizeof_T_pos
              _ st' [] x Hrepr')
    as (v' & st'' & Hpush & Hrepr'' & _).
  { simpl. intros Hfull. rewrite <- Hfull. apply Ha. lia. }
  by exists v', st''.
Qed.

(** C7 as amended. For every index, also one that is out of range,
    [operator[]] of a vector and [at] of an array compare it with the bound
    and then return the reference to the slot at that index, with nothing
    signalled; [at] does what the unchecked [operator[]] of the array
    does. *)
Theorem checked_access_returns_reference this st index S (a : Arr.Array) aindex :
  Vec.operator_index this index st = Ok ((Vec.m_data this, index), st)
  /\ Arr.at_ S a aindex = Ok aindex
  /\ Arr.at_ S a aindex = Arr.operator_index (T := T) a aindex.
Proof.
  unfold Vec.operator_index, Arr.at_, Arr.operator_index.
  split; [by case_decide |]. by case_decide.
Qed.

(** C8 as amended. For elements with a trivial destructor, [reAllocate] to
    fewer slots than there are elements sets [m_size] to [newCapacity],
    keeps the first [newCapacity] elements and returns; the allocator and
    the destructors of the elements kept are all that sees it. *)
Theorem reAllocate_shrink this st xs newCapacity :
  trivially_destructible = true ->
  repr this st xs -> allocatable newCapacity ->
  newCapacity < Vec.m_size this ->
  exists v st',
    reAllocate this newCapacity st = Ok (v, st')
    /\ Vec.m_size v = newCapacity
    /\ Vec.m_capacity v = newCapacity
    /\ repr v st' (take (Z.to_nat newCapacity) xs)
    /\ Vec.trace st'
       = Vec.trace st
         ++ Vec.reallocation sizeof_T (Vec.m_data this)
              (fresh (dom (Vec.blocks st))) (Z.to_nat newCapacity) newCapacity.
Proof.
  intros Htriv Hrepr Ha Hlt.
  destruct (reAllocate_spec size_bits sizeof_T trivially_destructible
              sizeof_T_pos this st xs newCapacity Hrepr Ha)
    as (st' & Hre & Hrepr' & Htr); [by left |].
  destruct Hrepr as [Hsize _ _ _]. destruct Ha as [H0 _].
  eexists _, st'. split; [done |]. simpl.
  split; [lia |]. split; [done |]. split; [done |].
  rewrite Htr, length_take. do 3 f_equal. lia.
Qed.

End VectorClaims.

(** ** Instances on a 16-bit [size_t] with two-byte elements *)

Lemma pushBack_index_roundtrip_witness :
  exists v st',
    Vec.pushBack_all 16 2 true [10; 20; 30]%nat Vec.Vector_new (Vec.Mem ∅ [])
    = Ok (v, st')
    /\ Vec.getSize v = 3
    /\ forall i x, [10; 20; 30]%nat !! i = Some x ->
         Vec.get v (Z.of_nat i) st' = Ok (Vec.Obj x, st').
Proof.
  refine (pushBack_index_roundtrip 16 2 true _ [10; 20; 30]%nat (Vec.Mem ∅ [])
            _ _); [lia | reflexivity |].
  split; vm_compute; [discriminate | reflexivity].
Defined.

Lemma run_invariant_witness :
  exists v st',
    Vec.run 16 2 true [Vec.Push 10; Vec.Push 20; Vec.Pop; Vec.Push 30;
                       Vec.Clear; Vec.Push 40]%nat Vec.Vector_new (Vec.Mem ∅ [])
    = Ok (v, st')
    /\ Vec.m_size v <= Vec.m_capacity v
    /\ Vec.getSize v = 1
    /\ forall i, 0 <= i < Vec.m_size v ->
         exists x, [40%nat] !! Z.to_nat i = Some x
           /\ Vec.get v i st' = Ok (Vec.Obj x, st').
Proof.
  refine (run_invariant 16 2 true _
            [Vec.Push 10; Vec.Push 20; Vec.Pop; Vec.Push 30; Vec.Clear;
             Vec.Push 40]%nat (Vec.Mem ∅ []) _ _); [lia | reflexivity |].
  split; vm_compute; [discriminate | reflexivity].
Defined.

Lemma repr_one_of_two : Vec.repr 16 one_of_two one_of_two_mem [10%nat].
Proof.
  split; simpl; [lia | lia | lia |].
  exists [Vec.Obj 10%nat; Vec.Raw]. split; [|split]; reflexivity.
Defined.

Lemma clear_destroys_past_the_end_witness :
  exists v st',
    Vec.clear one_of_two one_of_two_mem = Ok (v, st')
    /\ Vec.trace st' = [Vec.EvDtor (Some 1%positive) 1]
    /\ forall i x, [10%nat] !! i = Some x ->
         Vec.slot (Some 1%positive) (Z.of_nat i) st' = Some (Vec.Obj x).
Proof.
  exact (clear_destroys_past_the_end 16 one_of_two one_of_two_mem [10%nat]
           repr_one_of_two).
Defined.

(** C7, as stated, fails: on a vector of one element with two slots, index
    1 reads the raw slot and index 5 is a reference outside the block; on
    an array of three, [at(7)] is a reference past its end, which it is
    undefined to read. *)
Lemma checked_access_out_of_range :
  Vec.m_size one_of_two <= 1
  /\ Vec.get one_of_two 1 one_of_two_mem = Ok (Vec.Raw, one_of_two_mem)
  /\ Vec.m_size one_of_two <= 5
  /\ Vec.operator_index one_of_two 5 one_of_two_mem
     = Ok ((Some 1%positive, 5), one_of_two_mem)
  /\ 3 <= 7
  /\ Arr.at_ 3 (Arr.mkArray [1; 2; 3]%nat) 7 = Ok 7
  /\ Arr.read (Arr.mkArray [1; 2; 3]%nat) 7 = UB.
Proof. repeat split; (vm_compute; (reflexivity || discriminate)). Qed.

(** C8, as stated, fails: a vector of three elements with a trivial
    destructor reallocated to one slot loses the second and third, and the
    call returns as any other does. *)
Lemma reAllocate_shrink_is_silent :
  Vec.pushBack_all 16 2 true [10; 20; 30]%nat Vec.Vector_new (Vec.Mem ∅ [])
  = Ok (three_of_five, three_of_five_mem)
  /\ 1 < Vec.m_size three_of_five
  /\ Vec.reAllocate 16 2 true three_of_five 1 three_of_five_mem
     = Ok ({| Vec.m_data := Some 3%positive; Vec.m_size := 1;
              Vec.m_capacity := 1 |},
           Vec.Mem {[3%positive := [Vec.Obj 10%nat]]}
                   (Vec.trace three_of_five_mem
                    ++ [Vec.EvNew 3%positive 2; Vec.EvDtor (Some 2%positive) 0;
                        Vec.EvDelete 2%positive])).
Proof. repeat split; vm_compute; reflexivity. Qed.

Lemma repr_three_of_five :
  Vec.repr 16 three_of_five three_of_five_mem [10; 20; 30]%nat.
Proof.
  split; simpl; [lia | lia | lia |].
  eexists. split; [|split]; reflexivity.
Defined.

Lemma reAllocate_shrink_witness :
  exists v st',
    Vec.reAllocate 16 2 true three_of_five 1 three_of_five_mem = Ok (v, st')
    /\ Vec.m_size v = 1
    /\ Vec.m_capacity v = 1
    /\ Vec.repr 16 v st' [10%nat]
    /\ Vec.trace st'
       = Vec.trace three_of_five_mem
         ++ [Vec.EvNew 3%positive 2; Vec.EvDtor (Some 2%positive) 0;
             Vec.EvDelete 2%positive].
Proof.
  refine (reAllocate_shrink 16 2 true _ three_of_five three_of_five_mem
            [10; 20; 30]%nat 1 _ repr_three_of_five _ _).
  - lia.
  - reflexivity.
  - split; vm_compute; [discriminate | reflexivity].
  - simpl. lia.
Defined.

(** Why the capacities must be [allocatable]: with a 4-bit [size_t] the
    capacity after 15 is [(15 + 7 + 2) mod 16 = 8], the sixteenth
    [pushBack] cuts the vector down to 8 elements and stores past the end
    of the new block. *)
Remark growth_wraps :
  Vec.grow 4 15 = 8
  /\ Vec.pushBack_all 4 1 true (replicate 16 0%nat) Vec.Vector_new (Vec.Mem ∅ [])
     = UB.
Proof. split; vm_compute; reflexivity. Qed.

(** ** Function: ownership and dispatch *)

Section FunctionFacts.
Context {R Args C : Type}.
Implicit Types (f g : Fn.Function) (h : Fn.heap R Args C) (p q : loc).
Implicit Types (c : Fn.Callable R Args C) (args : Args).

Lemma deref_Ok h p c :
  Fn.callables h !! p = Some c -> Fn.deref (Some p) h = Ok (c, h).
Proof. intros Hp. unfold Fn.deref. simpl. by rewrite Hp. Qed.

Lemma deref_dangling h p :
  Fn.callables h !! p = None -> Fn.deref (Some p) h = UB.
Proof. intros Hp. unfold Fn.deref. simpl. by rewrite Hp. Qed.

(** [copy] allocates a callable equal to the one it is called on. *)
Lemma copy_Ok c h :
  Fn.copy c h
  = Ok (Some (fresh (dom (Fn.callables h))),
        Fn.Heap (<[fresh (dom (Fn.callables h)) := c]> (Fn.callables h))
                (Fn.objects h)).
Proof. by destruct c. Qed.

Lemma delete_Ok h p c :
  Fn.callables h !! p = Some c ->
  Fn.delete_ (Some p) h
  = Ok (tt, Fn.Heap (delete p (Fn.callables h)) (Fn.objects h)).
Proof. intros Hp. unfold Fn.delete_. by rewrite Hp. Qed.

Lemma fresh_callable h : Fn.callables h !! fresh (dom (Fn.callables h)) = None.
Proof. apply not_elem_of_dom, is_fresh. Qed.

Lemma Function_call_Ok f h p c args :
  Fn.m_callable f = Some p -> Fn.callables h !! p = Some c ->
  Fn.Function_call f args h = Fn.call c args h.
Proof.
  intros Hf Hp. unfold Fn.Function_call. rewrite Hf.
  by rewrite (bind_Ok _ _ _ _ _ (deref_Ok _ _ _ Hp)).
Qed.

(** What a call shows depends on the objects only, not on which callables
    are allocated. *)
Lemma observe_call c args h h' :
  Fn.objects h = Fn.objects h' ->
  Fn.observe (Fn.call c args h) = Fn.observe (Fn.call c args h').
Proof.
  intros Ho. destruct c as [fp|o m]; simpl.
  { unfold mret, M_ret. simpl. by rewrite Ho. }
  rewrite Ho. destruct (Fn.objects h' !! o) as [obj|]; [|done].
  by destruct (m obj args).
Qed.

Lemma Function_copy_spec f h p c :
  Fn.m_callable f = Some p -> Fn.callables h !! p = Some c ->
  Fn.Function_copy f h
  = Ok ({| Fn.m_callable := Some (fresh (dom (Fn.callables h))) |},
        Fn.Heap (<[fresh (dom (Fn.callables h)) := c]> (Fn.callables h))
                (Fn.objects h)).
Proof.
  intros Hf Hp. unfold Fn.Function_copy. rewrite Hf.
  rewrite (bind_Ok _ _ _ _ _ (deref_Ok _ _ _ Hp)).
  by rewrite (bind_Ok _ _ _ _ _ (copy_Ok c h)).
Qed.

(** C4. The copy constructor gives a wrapper that owns a callable at a
    freshly allocated address, equal to the target of the original, which
    stays where it was; a call through either shows the same; and after
    either is destroyed the other is called as before. *)
Theorem Function_copy_independent f h p c :
  Fn.m_callable f = Some p -> Fn.callables h !! p = Some c ->
  exists q h',
    Fn.Function_copy f h = Ok ({| Fn.m_callable := Some q |}, h')
    /\ q <> p /\ Fn.callables h !! q = None
    /\ Fn.callables h' !! q = Some c /\ Fn.callables h' !! p = Some c
    /\ Fn.objects h' = Fn.objects h
    /\ (forall args,
          Fn.Function_call {| Fn.m_callable := Some q |} args h'
          = Fn.Function_call f args h')
    /\ (forall args, exists h1,
          Fn.Function_destroy f h' = Ok (tt, h1)
          /\ Fn.observe (Fn.Function_call {| Fn.m_callable := Some q |} args h1)
             = Fn.observe (Fn.Function_call f args h))
    /\ (forall args, exists h2,
          Fn.Function_destroy {| Fn.m_callable := Some q |} h' = Ok (tt, h2)
          /\ Fn.observe (Fn.Function_call f args h2)
             = Fn.observe (Fn.Function_call f args h)).
Proof.
  intros Hf Hp. set (q := fresh (dom (Fn.callables h))).
  assert (Hq : Fn.callables h !! q = None) by apply fresh_callable.
  assert (Hqp : q <> p) by congruence.
  exists q. eexists. split; [by apply (Function_copy_spec f h p c) |].
  fold q. simpl.
  assert (Hq' : <[q := c]> (Fn.callables h) !! q = Some c)
    by apply lookup_insert_eq.
  assert (Hp' : <[q := c]> (Fn.callables h) !! p = Some c)
    by (by rewrite lookup_insert_ne).
  do 5 (split; [done |]). split; [|split].
  - intros args.
    by rewrite (Function_call_Ok _ _ q c), (Function_call_Ok f _ p c).
  - intros args. eexists. split.
    + unfold Fn.Function_destroy. rewrite Hf. by eapply delete_Ok.
    + rewrite (Function_call_Ok _ _ q c), (Function_call_Ok f h p c); try done.
      * by apply observe_call.
      * simpl. by rewrite lookup_delete_ne.
  - intros args. eexists. split.
    + unfold Fn.Function_destroy. cbn [Fn.m_callable]. by eapply delete_Ok.
    + rewrite (Function_call_Ok f _ p c), (Function_call_Ok f h p c); try done.
      * by apply observe_call.
      * simpl. by rewrite lookup_delete_ne.
Qed.

(** C9. Assigning a wrapper to itself deletes its callable and then calls
    [copy] on the deleted object: the statements of [operator=] do not get
    to the closing brace, and the call has no defined outcome. *)
Theorem Function_assign_self f h p c :
  Fn.m_callable f = Some p -> Fn.callables h !! p = Some c ->
  Fn.Function_assign f f h = UB
  /\ Fn.Function_assign_body f f h = UB.
Proof.
  intros Hf Hp.
  assert (Hbody : Fn.Function_assign_body f f h = UB).
  { unfold Fn.Function_assign_body. rewrite Hf.
    rewrite decide_True by done.
    rewrite (bind_Ok _ _ _ _ _ (delete_Ok _ _ _ Hp)).
    unfold mbind, M_bind. rewrite deref_dangling; [done |].
    simpl. apply lookup_delete_eq. }
  split; [|done].
  unfold Fn.Function_assign, mbind, M_bind. by rewrite Hbody.
Qed.

(** No call of [operator=] returns: where its statements get to the closing
    brace there is no [return]. *)
Lemma Function_assign_undefined f g h : Fn.Function_assign f g h = UB.
Proof.
  unfold Fn.Function_assign, mbind, M_bind.
  by destruct (Fn.Function_assign_body f g h) as [[f' h']|].
Qed.

(** On another wrapper the statements of [operator=] do delete the old
    target first, and leave [this] with a copy of the target of [other]. *)
Lemma Function_assign_other f g h p q c d :
  Fn.m_callable f = Some p -> Fn.callables h !! p = Some c ->
  Fn.m_callable g = Some q -> Fn.callables h !! q = Some d -> p <> q ->
  let released := delete p (Fn.callables h) in
  Fn.Function_assign_body f g h
  = Ok ({| Fn.m_callable := Some (fresh (dom released)) |},
        Fn.Heap (<[fresh (dom released) := d]> released) (Fn.objects h)).
Proof.
  intros Hf Hp Hg Hq Hne released. unfold Fn.Function_assign_body.
  rewrite Hf, Hg.
  rewrite decide_True by done.
  rewrite (bind_Ok _ _ _ _ _ (delete_Ok _ _ _ Hp)).
  erewrite bind_Ok; cycle 1.
  { apply deref_Ok. simpl. by rewrite lookup_delete_ne. }
  by rewrite (bind_Ok _ _ _ _ _ (copy_Ok d _)).
Qed.


(** The constructor from a function pointer does what [bind] does. *)
Remark Function_of_pointer_bind (functionPtr : Args -> R) :
  Fn.Function_of_pointer (C := C) functionPtr = Fn.bind functionPtr.
Proof. reflexivity. Qed.

(** A call through a wrapper of a bound method runs the method on the
    object the callable refers to and stores the object back. *)
Lemma Function_call_member f h p o m obj args :
  Fn.m_callable f = Some p ->
  Fn.callables h !! p = Some (Fn.MemberCallable o m) ->
  Fn.objects h !! o = Some obj ->
  Fn.Function_call f args h
  = Ok ((m obj args).1,
        Fn.Heap (Fn.callables h) (<[o := (m obj args).2]> (Fn.objects h))).
Proof.
  intros Hf Hp Ho. rewrite (Function_call_Ok f h p _ args Hf Hp).
  simpl. rewrite Ho. by destruct (m obj args).
Qed.

(** A chain of copies: every copy owns an equal callable, the callables
    that were there stay, the objects are not touched. *)
Lemma copies_spec n : forall f h p c,
  Fn.m_callable f = Some p -> Fn.callables h !! p = Some c ->
  exists gs h',
    Fn.copies n f h = Ok (gs, h')
    /\ length gs = n
    /\ Fn.objects h' = Fn.objects h
    /\ Fn.callables h ⊆ Fn.callables h'
    /\ forall g, g ∈ gs ->
         exists q, Fn.m_callable g = Some q /\ Fn.callables h' !! q = Some c.
Proof.
  induction n as [|n IH]; intros f h p c Hf Hp.
  - exists [], h. split; [done |]. split; [done |]. split; [done |].
    split; [done |]. intros g Hg. by apply elem_of_nil in Hg.
  - set (q := fresh (dom (Fn.callables h))).
    set (h1 := Fn.Heap (<[q := c]> (Fn.callables h)) (Fn.objects h)).
    destruct (IH {| Fn.m_callable := Some q |} h1 q c)
      as (gs & h' & Hrun & Hlen & Hobj & Hsub & Hall);
      [done | apply lookup_insert_eq |].
    exists ({| Fn.m_callable := Some q |} :: gs), h'.
    split; [|split; [|split; [|split]]].
    + simpl. rewrite (bind_Ok _ _ _ _ _ (Function_copy_spec f h p c Hf Hp)).
      fold q h1. by rewrite (bind_Ok _ _ _ _ _ Hrun).
    + simpl. by rewrite Hlen.
    + done.
    + etrans; [|exact Hsub]. apply insert_subseteq, fresh_callable.
    + intros g [->|Hg]%elem_of_cons; [|by apply Hall].
      exists q. split; [done |].
      eapply lookup_weaken; [|exact Hsub]. apply lookup_insert_eq.
Qed.

(** C10. A wrapper bound to a method of the object at [o], and every
    wrapper copied from it or from one of its copies, owns a callable that
    refers to [o] itself; a call through any of them after a call through
    any other runs on the object as the first call left it. *)
Theorem bound_copies_share_object h0 o (m : C -> Args -> R * C) n :
  exists f h gs h',
    Fn.bind_member o m h0 = Ok (f, h)
    /\ Fn.copies n f h = Ok (gs, h')
    /\ length gs = n
    /\ Fn.objects h' = Fn.objects h0
    /\ (forall g, g ∈ f :: gs ->
          exists q, Fn.m_callable g = Some q
            /\ Fn.callables h' !! q = Some (Fn.MemberCallable o m))
    /\ (forall g1 g2 obj a1 a2,
          g1 ∈ f :: gs -> g2 ∈ f :: gs -> Fn.objects h0 !! o = Some obj ->
          Fn.observe ((Fn.Function_call g1 a1;; Fn.Function_call g2 a2) h')
          = Ok ((m (m obj a1).2 a2).1,
                <[o := (m (m obj a1).2 a2).2]> (Fn.objects h0))).
Proof.
  set (p := fresh (dom (Fn.callables h0))).
  set (c := Fn.MemberCallable o m).
  set (h := Fn.Heap (<[p := c]> (Fn.callables h0)) (Fn.objects h0)).
  destruct (copies_spec n {| Fn.m_callable := Some p |} h p c)
    as (gs & h' & Hrun & Hlen & Hobj & Hsub & Hall);
    [done | apply lookup_insert_eq |].
  assert (Hown : forall g, g ∈ {| Fn.m_callable := Some p |} :: gs ->
            exists q, Fn.m_callable g = Some q /\ Fn.callables h' !! q = Some c).
  { intros g [->|Hg]%elem_of_cons; [|by apply Hall].
    exists p. split; [done |].
    eapply lookup_weaken; [|exact Hsub]. apply lookup_insert_eq. }
  exists {| Fn.m_callable := Some p |}, h, gs, h'.
  do 5 (split; [done |]).
  intros g1 g2 obj a1 a2 Hg1 Hg2 Ho.
  destruct (Hown g1 Hg1) as (q1 & Hq1 & Hc1).
  destruct (Hown g2 Hg2) as (q2 & Hq2 & Hc2).
  erewrite bind_Ok; cycle 1.
  { apply (Function_call_member g1 h' q1 o m obj a1 Hq1 Hc1).
    by rewrite Hobj. }
  cbv beta.
  rewrite (Function_call_member g2
             (Fn.Heap (Fn.callables h') (<[o := (m obj a1).2]> (Fn.objects h')))
             q2 o m (m obj a1).2 a2 Hq2 Hc2); cycle 1.
  { apply lookup_insert_eq. }
  simpl. by rewrite insert_insert_eq, Hobj.
Qed.

End FunctionFacts.

(** C5. A call through a wrapper is the call of its target with the same
    arguments: for a free function its value, the heap as it was. The
    wrapper of [exampleFunction] called with [(2.0f, 5.0f)] returns [10.0f]. *)
Theorem Function_call_forwards {R Args C} (f : Fn.Function)
    (h : Fn.heap R Args C) p c args :
  Fn.m_callable f = Some p -> Fn.callables h !! p = Some c ->
  Fn.Function_call f args h = Fn.call c args h
  /\ (forall functionPtr, c = Fn.FunctionCallable functionPtr ->
        Fn.Function_call f args h = Ok (functionPtr args, h))
  /\ (forall (D : Type) (h0 : Fn.heap float (float * float) D),
        exists g h',
          Fn.bind exampleFunction h0 = Ok (g, h')
          /\ Fn.Function_call g (float_2, float_5) h' = Ok (float_10, h')).
Proof.
  intros Hf Hp. split; [exact (Function_call_Ok f h p c args Hf Hp) |]. split.
  - intros fp ->. by rewrite (Function_call_Ok f h p _ args Hf Hp).
  - intros D h0.
    exists {| Fn.m_callable := Some (fresh (dom (Fn.callables h0))) |},
      (Fn.Heap (<[fresh (dom (Fn.callables h0))
                  := Fn.FunctionCallable exampleFunction]> (Fn.callables h0))
               (Fn.objects h0)).
    split; [reflexivity |].
    rewrite (Function_call_Ok (R := float) _ _ (fresh (dom (Fn.callables h0)))
               (Fn.FunctionCallable exampleFunction));
      [reflexivity | reflexivity | apply lookup_insert_eq].
Qed.


(** ** Instances *)

Lemma Function_copy_independent_witness :
  exists q h',
    Fn.Function_copy example_wrapper example_heap
    = Ok ({| Fn.m_callable := Some q |}, h')
    /\ q <> 1%positive /\ Fn.callables example_heap !! q = None
    /\ Fn.callables h' !! q = Some example_callable
    /\ Fn.callables h' !! 1%positive = Some example_callable
    /\ Fn.objects h' = Fn.objects example_heap
    /\ (forall args,
          Fn.Function_call {| Fn.m_callable := Some q |} args h'
          = Fn.Function_call example_wrapper args h')
    /\ (forall args, exists h1,
          Fn.Function_destroy example_wrapper h' = Ok (tt, h1)
          /\ Fn.observe (Fn.Function_call {| Fn.m_callable := Some q |} args h1)
             = Fn.observe (Fn.Function_call example_wrapper args example_heap))
    /\ (forall args, exists h2,
          Fn.Function_destroy {| Fn.m_callable := Some q |} h' = Ok (tt, h2)
          /\ Fn.observe (Fn.Function_call example_wrapper args h2)
             = Fn.observe (Fn.Function_call example_wrapper args example_heap)).
Proof.
  refine (Function_copy_independent example_wrapper example_heap 1%positive
            example_callable _ _); reflexivity.
Defined.

Lemma Function_call_forwards_witness :
  Fn.Function_call example_wrapper (float_2, float_5) example_heap
  = Fn.call example_callable (float_2, float_5) example_heap
  /\ (forall functionPtr,
        example_callable = Fn.FunctionCallable functionPtr ->
        Fn.Function_call example_wrapper (float_2, float_5) example_heap
        = Ok (functionPtr (float_2, float_5), example_heap))
  /\ (forall (D : Type) (h0 : Fn.heap float (float * float) D),
        exists g h',
          Fn.bind exampleFunction h0 = Ok (g, h')
          /\ Fn.Function_call g (float_2, float_5) h' = Ok (float_10, h')).
Proof.
  refine (Function_call_forwards example_wrapper example_heap 1%positive
            example_callable (float_2, float_5) _ _);
    reflexivity.
Defined.

Lemma Function_assign_self_witness :
  Fn.Function_assign example_wrapper example_wrapper example_heap = UB
  /\ Fn.Function_assign_body example_wrapper example_wrapper example_heap = UB.
Proof.
  refine (Function_assign_self example_wrapper example_heap 1%positive
            example_callable _ _); reflexivity.
Defined.

(** Two wrappers of [accumulate] on the counter at address 7, the second a
    copy of the first: 4 added through the first, then 1 through the copy,
    gives 8. *)
Example accumulate_through_copy :
  Fn.observe
    ((f ← Fn.bind_member 7%positive accumulate;
      g ← Fn.Function_copy f;
      Fn.Function_call f 4;;
      Fn.Function_call g 1) counter_heap)
  = Ok (8, {[7%positive := 8]}).
Proof. vm_compute. reflexivity. Qed.

(** ** Vector: more of what clients can rely on *)

Section VectorMore.
Context {T : Type}.
Variables size_bits sizeof_T : Z.
Variable trivially_destructible : bool.
Hypothesis sizeof_T_pos : 0 < sizeof_T.

Abbreviation repr := (Vec.repr size_bits).
Abbreviation allocatable := (Vec.allocatable size_bits sizeof_T).
Abbreviation pushBack :=
  (Vec.pushBack size_bits sizeof_T trivially_destructible).
Abbreviation popBack := (Vec.popBack size_bits).
Abbreviation pushBack_all :=
  (Vec.pushBack_all size_bits sizeof_T trivially_destructible).
Abbreviation run := (Vec.run size_bits sizeof_T trivially_destructible).
Implicit Types (this v : Vec.Vector) (st : Vec.mem T) (xs ys : list T).
Implicit Types (ops : list (Vec.op T)).

(** [popBack] takes the last element off and runs its destructor, on the
    slot it is in; the block and the capacity stay. On an empty vector it
    does nothing. *)
Theorem popBack_removes_last this st xs :
  repr this st xs ->
  exists v st',
    popBack this st = Ok (v, st')
    /\ repr v st' (removelast xs)
    /\ Vec.m_capacity v = Vec.m_capacity this
    /\ Vec.m_data v = Vec.m_data this
    /\ (xs = [] -> v = this /\ st' = st)
    /\ (xs <> [] ->
        Vec.m_size v = Vec.m_size this - 1
        /\ Vec.trace st'
           = Vec.trace st ++ [Vec.EvDtor (Vec.m_data this) (Vec.m_size this - 1)]
        /\ Vec.slot (Vec.m_data this) (Vec.m_size this - 1) st' = Some Vec.Dead).
Proof.
  intros Hrepr. pose proof Hrepr as [Hsize Hle Hfit _].
  destruct (popBack_spec size_bits this st xs Hrepr)
    as (v & st' & Hpop & Hrepr' & Hcap & Hdata).
  exists v, st'. do 4 (split; [done |]).
  unfold Vec.popBack in Hpop. split.
  - intros ->. simpl in Hsize. rewrite decide_False in Hpop by lia.
    by inversion Hpop.
  - intros Hne. assert (0 < length xs)%nat by (destruct xs; [done | simpl; lia]).
    rewrite decide_True in Hpop by lia.
    destruct (repr_owner _ _ _ _ Hrepr) as (q & cells & Hq & Hcells & Hlen & _);
      [lia |].
    set (n := Nat.pred (length xs)).
    assert (Hn : Vec.wrap size_bits (Vec.m_size this - 1) = Z.of_nat n).
    { unfold Vec.wrap. rewrite Z.mod_small by lia. lia. }
    simpl in Hpop. rewrite Hn, Hq in Hpop.
    rewrite (bind_Ok _ _ _ _ _ (destroy_Ok _ _ _ n Hcells)), ret_Ok in Hpop.
    inversion Hpop; subst v st'; clear Hpop. simpl.
    replace (Vec.m_size this - 1) with (Z.of_nat n) by lia. rewrite Hq.
    split; [done |]. split; [done |].
    erewrite slot_in by (simpl; apply lookup_insert_eq).
    apply list_lookup_insert_eq. lia.
Qed.

(** [pushBack] and then [popBack] gives back a vector that holds what it
    held, in a block that is at least as large. A full vector grows, which
    it can where it has no block yet or the elements have a trivial
    destructor. *)
Theorem pushBack_popBack this st xs x :
  repr this st xs ->
  (Vec.m_size this = Vec.m_capacity this ->
   allocatable (Vec.m_capacity this + Vec.m_capacity this / 2 + 2)
   /\ (trivially_destructible = true \/ Vec.m_data this = None)) ->
  exists v st',
    (v1 ← pushBack this (Vec.Outside x); popBack v1) st = Ok (v, st')
    /\ repr v st' xs
    /\ Vec.m_size v = Vec.m_size this
    /\ Vec.m_capacity this <= Vec.m_capacity v.
Proof.
  intros Hrepr Ha.
  destruct (pushBack_spec size_bits sizeof_T trivially_destructible
                sizeof_T_pos this st xs x Hrepr Ha)
    as (v1 & st1 & Hpush & Hrepr1 & Hcases).
  destruct (popBack_spec size_bits v1 st1 _ Hrepr1)
    as (v & st' & Hpop & Hrepr' & Hcap & _).
  rewrite removelast_last in Hrepr'.
  exists v, st'. split; [by rewrite (bind_Ok _ _ _ _ _ Hpush) |].
  split; [done |]. split.
  - destruct Hrepr as [-> _ _ _]. by destruct Hrepr' as [-> _ _ _].
  - rewrite Hcap. destruct Hrepr as [Hs Hle _ _].
    assert (0 <= Vec.m_capacity this / 2) by (apply Z.div_pos; lia).
    case_decide; destruct Hcases as (-> & _); lia.
Qed.


(** Pushing onto a vector that has room for all of [xs] never touches the
    allocator. *)
Lemma pushBack_all_room xs : forall this st ys,
  repr this st ys ->
  Z.of_nat (length ys + length xs) <= Vec.m_capacity this ->
  exists v st',
    pushBack_all xs this st = Ok (v, st')
    /\ repr v st' (ys ++ xs)
    /\ Vec.m_capacity v = Vec.m_capacity this
    /\ Vec.m_data v = Vec.m_data this
    /\ Vec.trace st' = Vec.trace st.
Proof.
  induction xs as [|x xs IH]; intros this st ys Hrepr Hroom.
  - exists this, st. by rewrite app_nil_r.
  - simpl in Hroom. pose proof Hrepr as [Hsize _ _ _].
    destruct (pushBack_spec size_bits sizeof_T trivially_destructible
                sizeof_T_pos this st ys x Hrepr)
      as (v1 & st1 & Hpush & Hrepr1 & Hcases); [lia |].
    rewrite decide_False in Hcases by lia.
    destruct Hcases as (Hcap1 & Hdata1 & Htr1).
    destruct (IH v1 st1 (ys ++ [x]) Hrepr1) as (v & st' & Hrun & Hrepr' & Hcap & Hdata & Htr).
    { rewrite length_app. simpl. lia. }
    exists v, st'. split; [simpl; by rewrite (bind_Ok _ _ _ _ _ Hpush) |].
    rewrite <- app_assoc in Hrepr'. split; [done |].
    split; [congruence |]. split; congruence.
Qed.

(** A vector made with [Vector(initialCapacity)] takes that many elements
    in the one block its constructor asked for: no second call of
    [operator new], no move, no destructor call. *)
Theorem reserved_capacity xs st initialCapacity :
  allocatable initialCapacity -> Z.of_nat (length xs) <= initialCapacity ->
  exists v0 st0 v st',
    Vec.Vector_with_capacity size_bits sizeof_T trivially_destructible
      initialCapacity st = Ok (v0, st0)
    /\ pushBack_all xs v0 st0 = Ok (v, st')
    /\ repr v st' xs
    /\ Vec.m_capacity v = initialCapacity
    /\ Vec.m_data v = Vec.m_data v0
    /\ Vec.trace st'
       = Vec.trace st ++ [Vec.EvNew (fresh (dom (Vec.blocks st)))
                                    (initialCapacity * sizeof_T)].
Proof.
  intros Ha Hlen. pose proof (allocatable_size _ _ sizeof_T_pos _ Ha) as Hc.
  destruct (reAllocate_spec size_bits sizeof_T trivially_destructible
              sizeof_T_pos Vec.Vector_new st [] initialCapacity)
    as (st0 & Hre & Hrepr0 & Htr0);
    [by split; simpl; try lia | done | by right |].
  rewrite take_nil in Hrepr0, Htr0.
  destruct (pushBack_all_room xs _ st0 [] Hrepr0)
    as (v & st' & Hrun & Hrepr & Hcap & Hdata & Htr); [simpl; lia |].
  eexists _, st0, v, st'. split; [exact Hre |]. split; [done |].
  split; [done |]. split; [done |]. split; [done |].
  by rewrite Htr, Htr0.
Qed.

(** Writing through the reference [operator[]] returns replaces that
    element and no other. *)
Theorem operator_index_assign this st xs i y :
  repr this st xs -> (i < length xs)%nat ->
  exists st',
    (r ← Vec.operator_index this (Z.of_nat i); Vec.assign r y) st = Ok (tt, st')
    /\ repr this st' (<[i := y]> xs)
    /\ Vec.trace st' = Vec.trace st
    /\ Vec.get this (Z.of_nat i) st' = Ok (Vec.Obj y, st').
Proof.
  intros Hrepr Hi. pose proof Hrepr as [Hsize Hle Hfit _].
  destruct (repr_owner _ _ _ _ Hrepr) as (q & cells & Hq & Hcells & Hlen & Htake);
    [lia |].
  assert (Href : forall b : M (Vec.mem T) unit, b = mret tt ->
            (b ;; mret (Vec.m_data this, Z.of_nat i)) st
            = Ok ((Vec.m_data this, Z.of_nat i), st)) by (by intros b ->).
  assert (Hrepr' : repr this
            (Vec.Mem (<[q := <[i := Vec.Obj y]> cells]> (Vec.blocks st))
                     (Vec.trace st)) (<[i := y]> xs)).
  { split; [by rewrite length_insert | done | done |].
    unfold Vec.block_holds. rewrite Hq. simpl. eexists.
    split; [apply lookup_insert_eq |]. split; [by rewrite length_insert |].
    by rewrite length_insert, take_insert_lt, Htake, list_fmap_insert. }
  eexists. split; [|split; [exact Hrepr' | split; [done |]]].
  - unfold Vec.operator_index.
    erewrite bind_Ok; [| apply Href; by case_decide].
    unfold Vec.assign. simpl. rewrite Hq.
    apply (store_Ok _ _ _ _ _ Hcells). lia.
  - eapply get_spec; [exact Hrepr' |]. by apply list_lookup_insert_eq.
Qed.


Lemma allocations_app (tr1 tr2 : list (Vec.event)) :
  Vec.allocations (tr1 ++ tr2) = (Vec.allocations tr1 + Vec.allocations tr2)%nat.
Proof.
  induction tr1 as [|[p b|p|p i] tr1 IH]; simpl; [done | | done | done].
  by rewrite IH.
Qed.

Lemma allocations_reallocation old p n c :
  Vec.allocations (Vec.reallocation sizeof_T old p n c) = 1%nat.
Proof.
  unfold Vec.reallocation. simpl. f_equal. rewrite allocations_app.
  assert (H : forall l : list Z, Vec.allocations (Vec.EvDtor old <$> l) = O)
    by (induction l; [done | by simpl]).
  rewrite H. by destruct old.
Qed.

Lemma capacity_bound_mono n m :
  (n <= m)%nat -> Vec.capacity_bound n <= Vec.capacity_bound m.
Proof.
  intros Hnm. unfold Vec.capacity_bound.
  assert (Z.of_nat n / 2 <= Z.of_nat m / 2) by (apply Z.div_le_mono; lia).
  lia.
Qed.

(** With [k] allocations behind it and the two growth invariants, a run of
    [pushBack] ends with [k'] of them and the invariants again. *)
Lemma pushBack_all_allocations xs : forall this st ys (k : nat),
  trivially_destructible = true ->
  repr this st ys ->
  allocatable (Vec.capacity_bound (length ys + length xs)) ->
  3 ^ (Z.of_nat k + 1) <= 2 ^ Z.of_nat k * (Vec.m_capacity this + 3) ->
  2 * 3 ^ Z.of_nat k <= 2 ^ Z.of_nat k * (Z.of_nat (length ys) + 2) ->
  exists v st' (k' : nat),
    pushBack_all xs this st = Ok (v, st')
    /\ (Vec.allocations (Vec.trace st') + k
        = Vec.allocations (Vec.trace st) + k')%nat
    /\ 2 * 3 ^ Z.of_nat k'
       <= 2 ^ Z.of_nat k' * (Z.of_nat (length ys + length xs) + 2).
Proof.
  induction xs as [|x xs IH]; intros this st ys k Htriv Hrepr Ha HJ HI.
  - exists this, st, k. split; [done |]. split; [done |].
    by rewrite Nat.add_0_r.
  - pose proof Hrepr as [Hsize Hle _ _].
    assert (Hpow2 : 0 < 2 ^ Z.of_nat k) by (apply Z.pow_pos_nonneg; lia).
    assert (Hhalf : 0 <= Vec.m_capacity this / 2) by (apply Z.div_pos; lia).
    assert (Hhalf2 : Vec.m_capacity this - 1 <= 2 * (Vec.m_capacity this / 2))
      by (pose proof (Z.mod_pos_bound (Vec.m_capacity this) 2 ltac:(lia));
          pose proof (Z.div_mod (Vec.m_capacity this) 2 ltac:(lia)); lia).
    destruct (pushBack_spec size_bits sizeof_T trivially_destructible
                sizeof_T_pos this st ys x Hrepr)
      as (v1 & st1 & Hpush & Hrepr1 & Hcases).
    { intros Hfull. split; [|by left].
      apply (allocatable_mono _ _ sizeof_T_pos
               (Vec.capacity_bound (length ys + length (x :: xs)))); [|done].
      unfold Vec.capacity_bound. simpl length.
      assert (Vec.m_capacity this / 2
              <= Z.of_nat (length ys + Datatypes.S (length xs)) / 2)
        by (apply Z.div_le_mono; lia).
      lia. }
    assert (Ha1 : allocatable
              (Vec.capacity_bound (length (ys ++ [x]) + length xs))).
    { rewrite length_app. simpl length in *.
      by replace (length ys + 1 + length xs)%nat
        with (length ys + Datatypes.S (length xs))%nat by lia. }
    assert (Hlen1 : (length (ys ++ [x]) + length xs
                     = length ys + length (x :: xs))%nat)
      by (rewrite length_app; simpl; lia).
    case_decide as Hfull.
    + (* a reallocation: one more allocation, a capacity half as large again *)
      destruct Hcases as (Hcap1 & _ & Htr1).
      destruct (IH v1 st1 (ys ++ [x]) (Datatypes.S k) Htriv Hrepr1 Ha1)
        as (v & st' & k' & Hrun & Hcount & Hbound).
      { rewrite Hcap1. rewrite Nat2Z.inj_succ, <- !Z.add_1_r.
        rewrite (Z.pow_add_r 3 (Z.of_nat k + 1) 1), (Z.pow_add_r 2 (Z.of_nat k) 1)
          by lia.
        rewrite !Z.pow_1_r. nia. }
      { rewrite length_app. simpl length.
        rewrite Nat2Z.inj_succ, <- !Z.add_1_r.
        rewrite (Z.pow_add_r 2 (Z.of_nat k) 1) by lia.
        rewrite Z.pow_1_r. nia. }
      exists v, st', k'. split; [simpl; by rewrite (bind_Ok _ _ _ _ _ Hpush) |].
      split; [|by rewrite <- Hlen1].
      rewrite Htr1, allocations_app, allocations_reallocation in Hcount. lia.
    + (* room left: the same count, one more element *)
      destruct Hcases as (Hcap1 & _ & Htr1).
      destruct (IH v1 st1 (ys ++ [x]) k Htriv Hrepr1 Ha1)
        as (v & st' & k' & Hrun & Hcount & Hbound).
      { by rewrite Hcap1. }
      { rewrite length_app. simpl length. nia. }
      exists v, st', k'. split; [simpl; by rewrite (bind_Ok _ _ _ _ _ Hpush) |].
      split; [|by rewrite <- Hlen1].
      rewrite Htr1 in Hcount. lia.
Qed.

(** Growth is geometric: for elements with a trivial destructor, [n] calls
    of [pushBack] on an empty vector make [k] calls of [operator new] with
    [(3/2)^k <= (n + 2) / 2], so [k] is logarithmic in [n]. *)
Theorem pushBack_all_logarithmic xs st :
  trivially_destructible = true ->
  allocatable (Vec.capacity_bound (length xs)) ->
  exists v st' (k : nat),
    pushBack_all xs Vec.Vector_new st = Ok (v, st')
    /\ Vec.allocations (Vec.trace st')
       = (Vec.allocations (Vec.trace st) + k)%nat
    /\ 2 * 3 ^ Z.of_nat k <= 2 ^ Z.of_nat k * (Z.of_nat (length xs) + 2).
Proof.
  intros Htriv Ha.
  destruct (pushBack_all_allocations xs Vec.Vector_new st [] O Htriv)
    as (v & st' & k & Hrun & Hcount & Hbound);
    [apply repr_new; by eapply allocatable_width | done | simpl; lia
    | simpl; lia |].
  exists v, st', k. split; [done |]. split; [lia | done].
Qed.


(** The capacity along an interleaving: it never goes down, it is at least
    the most elements held so far ([pk]) and at most what [pushBack] asks
    for at that many. *)
Lemma run_capacity ops : forall this st xs (pk : nat),
  trivially_destructible = true ->
  repr this st xs -> (length xs <= pk)%nat ->
  Z.of_nat pk <= Vec.m_capacity this <= Vec.capacity_bound pk ->
  allocatable (Vec.capacity_bound (Nat.max pk (Vec.peak (length xs) ops))) ->
  exists v st',
    run ops this st = Ok (v, st')
    /\ repr v st' (Vec.expected xs ops)
    /\ Vec.m_capacity this <= Vec.m_capacity v
    /\ Z.of_nat (Nat.max pk (Vec.peak (length xs) ops)) <= Vec.m_capacity v
       <= Vec.capacity_bound (Nat.max pk (Vec.peak (length xs) ops)).
Proof.
  induction ops as [|o ops IH]; intros this st xs pk Htriv Hrepr Hpk Hcap Ha.
  - exists this, st. simpl. rewrite Nat.max_l by done. by split.
  - pose proof Hrepr as [Hsize Hle _ _].
    pose proof (peak_ge (T := T)) as Hge.
    destruct o as [x| |]; simpl in Ha |- *.
    + (* pushBack *)
      pose proof (Hge (Datatypes.S (length xs)) ops) as Hpeak.
      set (P := Nat.max pk (Vec.peak (Datatypes.S (length xs)) ops)) in *.
      assert (Hhalf : 0 <= Z.of_nat (length xs) / 2) by (apply Z.div_pos; lia).
      assert (Hmono : Vec.capacity_bound (Datatypes.S (length xs))
                      <= Vec.capacity_bound P)
        by (apply capacity_bound_mono; lia).
      assert (Hnext : Z.of_nat (length xs) + Z.of_nat (length xs) / 2 + 2
                      <= Vec.capacity_bound (Datatypes.S (length xs))).
      { unfold Vec.capacity_bound.
        assert (Z.of_nat (length xs) / 2 <= Z.of_nat (Datatypes.S (length xs)) / 2)
          by (apply Z.div_le_mono; lia).
        lia. }
      destruct (pushBack_spec size_bits sizeof_T trivially_destructible
                sizeof_T_pos this st xs x Hrepr)
        as (v1 & st1 & Hpush & Hrepr1 & Hcases).
      { intros Hfull. split; [|by left].
        apply (allocatable_mono _ _ sizeof_T_pos (Vec.capacity_bound P)); [|done].
        rewrite <- Hfull, Hsize. lia. }
      assert (Hlen1 : length (xs ++ [x]) = Datatypes.S (length xs))
        by (rewrite length_app; simpl; lia).
      destruct (IH v1 st1 (xs ++ [x]) (Nat.max pk (Datatypes.S (length xs)))
                  Htriv Hrepr1)
        as (v & st' & Hrun & Hrepr' & Hmon & Hbounds).
      { lia. }
      { case_decide as Hfull; destruct Hcases as (-> & _).
        - rewrite <- Hfull, Hsize.
          replace (Nat.max pk (Datatypes.S (length xs)))
            with (Datatypes.S (length xs)) by lia.
          lia.
        - assert (Vec.capacity_bound pk
                  <= Vec.capacity_bound (Nat.max pk (Datatypes.S (length xs))))
            by (apply capacity_bound_mono; lia).
          lia. }
      { rewrite Hlen1.
        by replace (Nat.max (Nat.max pk (Datatypes.S (length xs)))
                            (Vec.peak (Datatypes.S (length xs)) ops))
          with P by lia. }
      rewrite Hlen1 in Hbounds.
      replace (Nat.max (Nat.max pk (Datatypes.S (length xs)))
                       (Vec.peak (Datatypes.S (length xs)) ops))
        with P in Hbounds by lia.
      exists v, st'. split; [by rewrite (bind_Ok _ _ _ _ _ Hpush) |].
      split; [done |]. split; [|done].
      case_decide; destruct Hcases as (Hc & _); rewrite Hc in Hmon; lia.
    + (* popBack *)
      destruct (popBack_spec size_bits this st xs Hrepr)
        as (v1 & st1 & Hpop & Hrepr1 & Hcap1 & _).
      assert (Hlen1 : length (removelast xs) = Nat.pred (length xs))
        by (rewrite removelast_firstn_len, length_take; lia).
      assert (HP : Nat.max pk (Nat.max (length xs)
                                 (Vec.peak (Nat.pred (length xs)) ops))
                   = Nat.max pk (Vec.peak (Nat.pred (length xs)) ops)) by lia.
      rewrite HP in Ha |- *.
      destruct (IH v1 st1 (removelast xs) pk Htriv Hrepr1)
        as (v & st' & Hrun & Hrepr' & Hmon & Hbounds);
        [lia | by rewrite Hcap1 | by rewrite Hlen1 |].
      rewrite Hlen1 in Hbounds. rewrite Hcap1 in Hmon.
      exists v, st'. split; [by rewrite (bind_Ok _ _ _ _ _ Hpop) |].
      split; [done |]. split; done.
    + (* clear *)
      destruct (clear_spec size_bits this st xs Hrepr)
        as (st1 & Hclear & Hrepr1 & _).
      assert (HP : Nat.max pk (Nat.max (length xs) (Vec.peak 0 ops))
                   = Nat.max pk (Vec.peak 0 ops)) by lia.
      rewrite HP in Ha |- *.
      destruct (IH _ st1 [] pk Htriv Hrepr1)
        as (v & st' & Hrun & Hrepr' & Hmon & Hbounds);
        [simpl; lia | done | done |].
      exists v, st'. split; [by rewrite (bind_Ok _ _ _ _ _ Hclear) |].
      split; [done |]. split; done.
Qed.

(** After any interleaving on an empty vector of elements with a trivial
    destructor the capacity is at least the most elements held at a time,
    and at most that many plus half as many plus two. *)
Theorem capacity_within_peak ops st :
  trivially_destructible = true ->
  allocatable (Vec.capacity_bound (Vec.peak 0 ops)) ->
  exists v st',
    run ops Vec.Vector_new st = Ok (v, st')
    /\ Z.of_nat (Vec.peak 0 ops) <= Vec.m_capacity v
    /\ Vec.m_capacity v
       <= Z.of_nat (Vec.peak 0 ops) + Z.of_nat (Vec.peak 0 ops) / 2 + 2.
Proof.
  intros Htriv Ha.
  destruct (run_capacity ops Vec.Vector_new st [] O Htriv)
    as (v & st' & Hrun & _ & _ & Hbounds);
    [apply repr_new; by eapply allocatable_width | done
    | by unfold Vec.capacity_bound | done |].
  simpl in Hbounds. by exists v, st'.
Qed.

(** No interleaving of [pushBack], [popBack] and [clear] on elements with a
    trivial destructor makes the capacity smaller: storage is only given
    back by the destructor of the vector. *)
Theorem capacity_never_shrinks ops this st xs :
  trivially_destructible = true ->
  repr this st xs ->
  allocatable
    (Vec.capacity_bound
       (Nat.max (Z.to_nat (Vec.m_capacity this)) (Vec.peak (length xs) ops))) ->
  exists v st',
    run ops this st = Ok (v, st')
    /\ Vec.m_capacity this <= Vec.m_capacity v.
Proof.
  intros Htriv Hrepr Ha. pose proof Hrepr as [Hsize Hle _ _].
  destruct (run_capacity ops this st xs (Z.to_nat (Vec.m_capacity this))
              Htriv Hrepr)
    as (v & st' & Hrun & _ & Hmon & _); [lia | | done |].
  - unfold Vec.capacity_bound.
    assert (0 <= Z.of_nat (Z.to_nat (Vec.m_capacity this)) / 2)
      by (apply Z.div_pos; lia).
    lia.
  - by exists v, st'.
Qed.

End VectorMore.

(** ** Vector: what a run leaves of the rest of the heap *)

(** A bind that returns has run both its parts. *)
Lemma bind_inv {S A B} (m : M S A) (f : A -> M S B) s r :
  (m ≫= f) s = Ok r -> exists a s1, m s = Ok (a, s1) /\ f a s1 = Ok r.
Proof.
  unfold mbind, M_bind. destruct (m s) as [[a s1]|]; [|done].
  intros H. by exists a, s1.
Qed.

Section Frame.
Context {T : Type}.
Variables size_bits sizeof_T : Z.
Variable trivially_destructible : bool.
Implicit Types (this v : Vec.Vector) (st : Vec.mem T) (p q : loc).
Implicit Types (ops : list (Vec.op T)).

Lemma notin_option_list q (po : option loc) :
  po <> Some q -> q ∉ option_list po.
Proof.
  destruct po as [p|]; simpl.
  - intros Hne ->%list_elem_of_singleton. by apply Hne.
  - intros _ []%elem_of_nil.
Qed.

Lemma notin_singleton q p : q <> p -> q ∉ [p].
Proof. by intros Hne ->%list_elem_of_singleton. Qed.

Lemma sub_here p (l : list loc) : [p] ⊆ p :: l.
Proof. intros x ->%list_elem_of_singleton. apply elem_of_cons. by left. Qed.

Lemma sub_tail p (l : list loc) : l ⊆ p :: l.
Proof. by apply list_subseteq_cons. Qed.

Lemma untouched_refl ps st : Vec.untouched ps st st.
Proof. by intros q _. Qed.

Lemma untouched_trans ps st1 st2 st3 :
  Vec.untouched ps st1 st2 -> Vec.untouched ps st2 st3 ->
  Vec.untouched ps st1 st3.
Proof. intros H12 H23 q Hq. by rewrite H23, H12. Qed.

Lemma untouched_weaken ps ps' st st' :
  ps ⊆ ps' -> Vec.untouched ps st st' -> Vec.untouched ps' st st'.
Proof. intros Hsub H q Hq. apply H. intros Hin. by apply Hq, Hsub. Qed.

Lemma store_untouched po i (x : T) st st' :
  Vec.store po i x st = Ok (tt, st') -> Vec.untouched (option_list po) st st'.
Proof.
  unfold Vec.store. destruct po as [p|]; [|done].
  destruct (Vec.slot (Some p) i st); [|done].
  intros [= <-] q Hq. simpl. apply lookup_alter_ne.
  intros Heq. apply Hq, list_elem_of_singleton. congruence.
Qed.

Lemma load_same po i (x : T) st st' :
  Vec.load po i st = Ok (x, st') -> st' = st.
Proof.
  unfold Vec.load. destruct (Vec.slot po i st) as [[| |]|]; try done.
  by intros [= _ <-].
Qed.

Lemma destroy_untouched po i st st' :
  Vec.destroy po i st = Ok (tt, st') -> Vec.untouched (option_list po) st st'.
Proof.
  unfold Vec.destroy. destruct po as [p|].
  - destruct (Vec.slot (Some p) i st); intros [= <-] q Hq; simpl; [|done].
    apply lookup_alter_ne. intros Heq. apply Hq, list_elem_of_singleton. congruence.
  - by intros [= <-] q _.
Qed.

Lemma delete_array_untouched po st st' :
  Vec.delete_array trivially_destructible po st = Ok (tt, st') ->
  Vec.untouched (option_list po) st st'
  /\ forall q, po = Some q -> Vec.blocks st' !! q = None.
Proof.
  unfold Vec.delete_array. destruct po as [p|].
  - destruct trivially_destructible; [|done].
    destruct (Vec.blocks st !! p); [|done]. intros [= <-]. split.
    + intros q Hq. simpl. apply lookup_delete_ne.
      intros Heq. apply Hq, list_elem_of_singleton. congruence.
    + intros q [= <-]. simpl. apply lookup_delete_eq.
  - intros [= <-]. split; [by intros q _ | done].
Qed.

Lemma operator_new_untouched bytes st p st' :
  Vec.operator_new sizeof_T bytes st = Ok (p, st') ->
  p = fresh (dom (Vec.blocks st)) /\ Vec.untouched [p] st st'.
Proof.
  unfold Vec.operator_new. intros [= <- <-]. split; [done |].
  intros q Hq. simpl. apply lookup_insert_ne.
  intros Heq. apply Hq, list_elem_of_singleton. congruence.
Qed.

Lemma for_from_untouched ps (body : Z -> M (Vec.mem T) unit) n :
  (forall i s s', body i s = Ok (tt, s') -> Vec.untouched ps s s') ->
  forall i s s', for_from n i body s = Ok (tt, s') -> Vec.untouched ps s s'.
Proof.
  intros Hbody. induction n as [|n IH]; intros i s s'; simpl.
  - intros [= <-]. apply untouched_refl.
  - intros (a & s1 & Hb & Hrest)%bind_inv. destruct a.
    eapply untouched_trans; [by eapply Hbody | by eapply IH].
Qed.


Lemma reAllocate_frame this newCapacity st v st' :
  Vec.reAllocate size_bits sizeof_T trivially_destructible this newCapacity st
  = Ok (v, st') ->
  let p := fresh (dom (Vec.blocks st)) in
  Vec.m_data v = Some p
  /\ Vec.untouched (p :: option_list (Vec.m_data this)) st st'
  /\ forall q, Vec.m_data this = Some q -> Vec.blocks st' !! q = None.
Proof.
  unfold Vec.reAllocate.
  intros (p & s1 & Hnew & ([] & s2 & Hmove & ([] & s3 & Hdtor
            & ([] & s4 & Hdel & [= <- <-])%bind_inv)%bind_inv)%bind_inv)%bind_inv.
  apply operator_new_untouched in Hnew as [-> Hnew]. simpl.
  apply delete_array_untouched in Hdel as [Hdel Hgone].
  split; [done |]. split; [|done].
  set (p := fresh (dom (Vec.blocks st))) in *.
  set (ps := p :: option_list (Vec.m_data this)).
  apply (untouched_trans ps _ s1);
    [eapply untouched_weaken; [apply sub_here | done] |].
  apply (untouched_trans ps _ s2).
  { eapply (for_from_untouched ps); [|exact Hmove].
    intros i s s' (x & s0 & ->%load_same & Hst%store_untouched)%bind_inv.
    eapply untouched_weaken; [apply sub_here | done]. }
  apply (untouched_trans ps _ s3).
  { eapply (for_from_untouched ps); [|exact Hdtor].
    intros i s s' Hd%destroy_untouched.
    eapply untouched_weaken; [apply sub_tail | done]. }
  eapply untouched_weaken; [apply sub_tail | done].
Qed.

(** Each mutator keeps [owns]: it reads and writes its own block only, a
    block it gives up is deleted, and a block it takes is fresh. *)
Lemma step_owns others this o st v st' :
  Vec.owns others this st ->
  Vec.step size_bits sizeof_T trivially_destructible this o st = Ok (v, st') ->
  Vec.owns others v st'.
Proof.
  intros [Hrest Hmine] Hstep. destruct o as [x| |]; simpl in Hstep.
  - (* pushBack *)
    unfold Vec.pushBack in Hstep.
    apply bind_inv in Hstep
      as (v1 & s1 & Hgrow
          & (x0 & s0 & [= <- <-]
             & ([] & s2 & Hst & [= <- <-])%bind_inv)%bind_inv).
    apply store_untouched in Hst. simpl.
    case_decide as Hfull.
    + apply reAllocate_frame in Hgrow as (Hp & Hframe & Hgone).
      set (p := fresh (dom (Vec.blocks st))) in *.
      assert (Hfresh : Vec.blocks st !! p = None) by apply fresh_block.
      rewrite Hp in Hst |- *. split.
      * intros q Hq. assert (q <> p) by (intros ->; by apply Hq).
        rewrite Hst by (by apply notin_singleton).
        destruct (decide (Vec.m_data this = Some q)) as [Hold|Hold].
        -- by rewrite (Hgone q Hold), (Hmine q Hold).
        -- rewrite Hframe; [apply Hrest; congruence |].
           apply not_elem_of_cons. split; [done | by apply notin_option_list].
      * intros ? [= <-].
        destruct (decide (Vec.m_data this = Some p)) as [Hold|Hold];
          [by apply Hmine |].
        by rewrite <- Hrest.
    + injection Hgrow as <- <-. split; [|done].
      intros q Hq. rewrite Hst; [by apply Hrest |].
      apply notin_option_list. simpl in Hq. congruence.
  - (* popBack *)
    unfold Vec.popBack in Hstep. case_decide.
    + apply bind_inv in Hstep as ([] & s1 & Hd%destroy_untouched & [= <- <-]).
      simpl in *. split; [|done].
      intros q Hq. rewrite Hd; [by apply Hrest |].
      apply notin_option_list. simpl in Hq. congruence.
    + by injection Hstep as <- <-.
  - (* clear *)
    unfold Vec.clear in Hstep.
    apply bind_inv in Hstep as ([] & s1 & Hloop & [= <- <-]).
    simpl. split; [|done].
    intros q Hq. rewrite <- Hrest by done.
    eapply (for_from_untouched (option_list (Vec.m_data this))); [|exact Hloop |].
    + intros i s s' Hd. exact (destroy_untouched _ _ _ _ Hd).
    + apply notin_option_list. simpl in Hq. congruence.
Qed.

Lemma run_owns others ops : forall this st v st',
  Vec.owns others this st ->
  Vec.run size_bits sizeof_T trivially_destructible ops this st = Ok (v, st') ->
  Vec.owns others v st'.
Proof.
  induction ops as [|o ops IH]; intros this st v st' Hown Hrun; simpl in Hrun.
  - by injection Hrun as <- <-.
  - apply bind_inv in Hrun as (v1 & s1 & Hstep & Hrun).
    eapply IH; [|exact Hrun]. by eapply step_owns.
Qed.

(** [~Vector()] leaves the blocks the vector lived on top of. *)
Lemma Vector_destroy_owns others this st st' :
  Vec.owns others this st ->
  Vec.Vector_destroy trivially_destructible this st = Ok (tt, st') ->
  Vec.blocks st' = others.
Proof.
  intros [Hrest Hmine] Hd. unfold Vec.Vector_destroy in Hd.
  apply bind_inv in Hd as (v1 & s1 & Hclear & Hdel).
  unfold Vec.clear in Hclear.
  apply bind_inv in Hclear as ([] & s0 & Hloop & [= <- <-]). simpl in Hdel.
  apply delete_array_untouched in Hdel as [Hdel Hgone].
  apply map_eq. intros q.
  destruct (decide (Vec.m_data this = Some q)) as [Hq|Hq].
  - by rewrite (Hgone q Hq), (Hmine q Hq).
  - assert (q ∉ option_list (Vec.m_data this)) by (by apply notin_option_list).
    rewrite Hdel by done. rewrite <- Hrest by done.
    eapply (for_from_untouched (option_list (Vec.m_data this))); [|exact Hloop |done].
    intros i s s' Hd. exact (destroy_untouched _ _ _ _ Hd).
Qed.

End Frame.

Section Ownership.
Context {T : Type}.
Variables size_bits sizeof_T : Z.
Variable trivially_destructible : bool.
Hypothesis sizeof_T_pos : 0 < sizeof_T.

Abbreviation repr := (Vec.repr size_bits).
Abbreviation allocatable := (Vec.allocatable size_bits sizeof_T).
Abbreviation run := (Vec.run size_bits sizeof_T trivially_destructible).
Implicit Types (this v other : Vec.Vector) (st : Vec.mem T) (xs ys : list T).
Implicit Types (ops : list (Vec.op T)).

Lemma Vector_destroy_Ok this st xs :
  repr this st xs -> exists st', Vec.Vector_destroy true this st = Ok (tt, st').
Proof.
  intros Hrepr.
  destruct (clear_spec size_bits this st xs Hrepr) as (st1 & Hclear & Hrepr1 & _).
  unfold Vec.Vector_destroy. rewrite (bind_Ok _ _ _ _ _ Hclear). simpl.
  destruct Hrepr1 as [_ _ _ Hb]. unfold Vec.block_holds in Hb. simpl in Hb.
  destruct (Vec.m_data this) as [p|]; [|by eexists].
  destruct Hb as (cells & Hp & _). rewrite (delete_array_Ok _ _ _ Hp). by eexists.
Qed.

(** Every block a vector of elements with a trivial destructor asks for in
    its life is given back: after any interleaving of the mutators on an
    empty vector and then the destructor, the heap holds the blocks it held
    before, as they were. *)
Theorem run_destroy_restores ops st :
  trivially_destructible = true ->
  allocatable (Vec.capacity_bound (Vec.peak 0 ops)) ->
  exists v st' st'',
    run ops Vec.Vector_new st = Ok (v, st')
    /\ Vec.Vector_destroy trivially_destructible v st' = Ok (tt, st'')
    /\ Vec.blocks st'' = Vec.blocks st.
Proof.
  intros Htriv Ha.
  destruct (run_spec size_bits sizeof_T trivially_destructible sizeof_T_pos
              ops Vec.Vector_new st [] (Vec.peak 0 ops) Htriv)
    as (v & st' & Hrun & Hrepr);
    [apply repr_new; by eapply allocatable_width | done | done |].
  destruct (Vector_destroy_Ok v st' _ Hrepr) as (st'' & Hd).
  rewrite <- Htriv in Hd.
  exists v, st', st''. split; [done |]. split; [done |].
  eapply Vector_destroy_owns; [|exact Hd].
  eapply run_owns; [|exact Hrun].
  split; [done |]. by intros p.
Qed.

(** Two vectors in one heap do not interfere: whatever is done to one, the
    other holds what it held, and the first never takes the block of the
    second. The elements have a trivial destructor, so that the first can
    grow. *)
Theorem other_vector_untouched ops this other st xs ys :
  trivially_destructible = true ->
  repr this st xs -> repr other st ys ->
  (forall q, Vec.m_data other = Some q -> Vec.m_data this <> Some q) ->
  allocatable (Vec.capacity_bound (Vec.peak (length xs) ops)) ->
  exists v st',
    run ops this st = Ok (v, st')
    /\ repr v st' (Vec.expected xs ops)
    /\ repr other st' ys
    /\ (forall q, Vec.m_data other = Some q -> Vec.m_data v <> Some q).
Proof.
  intros Htriv Hrepr Hother Hdist Ha.
  destruct (run_spec size_bits sizeof_T trivially_destructible sizeof_T_pos
              ops this st xs (Vec.peak (length xs) ops) Htriv Hrepr)
    as (v & st' & Hrun & Hrepr'); [done | done |].
  exists v, st'. split; [done |]. split; [done |].
  set (others := match Vec.m_data this with
                 | Some p => delete p (Vec.blocks st)
                 | None => Vec.blocks st
                 end).
  assert (Hown : Vec.owns others this st).
  { unfold others. split.
    - intros q Hq. destruct (Vec.m_data this) as [p|]; [|done].
      rewrite lookup_delete_ne; [done | congruence].
    - intros p ->. apply lookup_delete_eq. }
  destruct (run_owns size_bits sizeof_T trivially_destructible others ops
              this st v st' Hown Hrun)
    as [Hrest Hmine].
  assert (Hkeep : forall q cells, Vec.m_data other = Some q ->
            Vec.blocks st !! q = Some cells ->
            Vec.m_data v <> Some q /\ Vec.blocks st' !! q = Some cells).
  { intros q cells Hq Hcells.
    assert (Hothers : others !! q = Some cells).
    { destruct Hown as [Hrest0 _]. rewrite <- Hrest0; [done |].
      intros Heq. by apply (Hdist q Hq). }
    assert (Hne : Vec.m_data v <> Some q).
    { intros Hv. rewrite (Hmine q Hv) in Hothers. done. }
    split; [done |]. rewrite Hrest; [done | congruence]. }
  destruct Hother as [Hs Hle Hfit Hb]. split; [split; [done | done | done |] |].
  - unfold Vec.block_holds in *. destruct (Vec.m_data other) as [q|]; [|done].
    destruct Hb as (cells & Hcells & Hlen & Htake).
    exists cells. split; [|done]. by apply (Hkeep q cells).
  - intros q Hq. unfold Vec.block_holds in Hb. rewrite Hq in Hb.
    destruct Hb as (cells & Hcells & _). by apply (Hkeep q cells).
Qed.

End Ownership.

(** ** Vector: references to elements, and elements with a destructor *)

Section VectorReferences.
Context {T : Type}.
Variables size_bits sizeof_T : Z.
Variable trivially_destructible : bool.
Hypothesis sizeof_T_pos : 0 < sizeof_T.

Abbreviation repr := (Vec.repr size_bits).
Abbreviation allocatable := (Vec.allocatable size_bits sizeof_T).
Abbreviation reAllocate :=
  (Vec.reAllocate size_bits sizeof_T trivially_destructible).
Abbreviation pushBack :=
  (Vec.pushBack size_bits sizeof_T trivially_destructible).
Abbreviation pushBack_all :=
  (Vec.pushBack_all size_bits sizeof_T trivially_destructible).
Abbreviation run := (Vec.run size_bits sizeof_T trivially_destructible).
Implicit Types (this v : Vec.Vector) (st : Vec.mem T) (xs : list T).
Implicit Types (ops : list (Vec.op T)) (value : Vec.reference T).

(** A reference that is no element of [this] is read after a reallocation
    of [this] as it was before. *)
Lemma value_of_reAllocate this st v st' value x newCapacity :
  Vec.value_of value st = Ok (x, st) -> Vec.apart value this ->
  reAllocate this newCapacity st = Ok (v, st') ->
  Vec.value_of value st' = Ok (x, st').
Proof.
  intros Hval Hapart Hre. destruct value as [y|[po i]]; simpl in *.
  { by injection Hval as ->. }
  apply reAllocate_frame in Hre as (_ & Hframe & _).
  unfold Vec.load, Vec.slot in *.
  destruct po as [q|]; [|done]. simpl in *.
  destruct (Vec.blocks st !! q) as [cells|] eqn:Hq; [|done].
  rewrite Hframe.
  { rewrite Hq.
    destruct (Some cells ≫= _) as [[|y|]|]; try done. by injection Hval as ->. }
  apply not_elem_of_cons. split.
  - intros ->. by rewrite fresh_block in Hq.
  - apply notin_option_list. congruence.
Qed.

(** [pushBack] makes the object [value] refers to the new last element. On
    a full vector it first reallocates to [m_capacity + m_capacity / 2 + 2]
    slots: that must be a size [operator new] can be asked for, the old
    block must be one [delete[]] can give back, and [value] must be no
    element of the vector itself. On a vector with room it does not touch
    the allocator, and [value] may be any object. *)
Theorem pushBack_appends this st xs value x :
  repr this st xs ->
  Vec.value_of value st = Ok (x, st) ->
  (Vec.m_size this = Vec.m_capacity this ->
   allocatable (Vec.m_capacity this + Vec.m_capacity this / 2 + 2)
   /\ (trivially_destructible = true \/ Vec.m_data this = None)
   /\ Vec.apart value this) ->
  exists v st',
    pushBack this value st = Ok (v, st')
    /\ repr v st' (xs ++ [x])
    /\ Vec.m_size v = Vec.m_size this + 1
    /\ Vec.get v (Vec.m_size this) st' = Ok (Vec.Obj x, st')
    /\ (Vec.m_size this = Vec.m_capacity this ->
        Vec.m_capacity v = Vec.m_capacity this + Vec.m_capacity this / 2 + 2
        /\ Vec.m_data v = Some (fresh (dom (Vec.blocks st)))
        /\ Vec.trace st'
           = Vec.trace st
             ++ Vec.reallocation sizeof_T (Vec.m_data this)
                  (fresh (dom (Vec.blocks st))) (length xs) (Vec.m_capacity v))
    /\ (Vec.m_size this < Vec.m_capacity this ->
        Vec.m_capacity v = Vec.m_capacity this
        /\ Vec.m_data v = Vec.m_data this
        /\ Vec.trace st' = Vec.trace st).
Proof.
  intros Hrepr Hval Hfull. pose proof Hrepr as [Hsize Hle Hfit _].
  assert (Hget : forall v st', repr v st' (xs ++ [x]) ->
            Vec.get v (Vec.m_size this) st' = Ok (Vec.Obj x, st')).
  { intros v st' Hrepr'. rewrite Hsize. eapply get_spec; [done |].
    by rewrite lookup_app_r, Nat.sub_diag. }
  assert (Hnext : forall v st', repr v st' (xs ++ [x]) ->
            Vec.m_size v = Vec.m_size this + 1).
  { intros v st' [Hsize' _ _ _]. rewrite length_app in Hsize'.
    simpl in Hsize'. lia. }
  unfold Vec.pushBack. case_decide as Hcmp.
  - (* no room: reallocate, read the reference, store *)
    assert (Heq : Vec.m_size this = Vec.m_capacity this) by lia.
    destruct (Hfull Heq) as (Ha & Hdel & Hapart).
    rewrite (grow_exact size_bits sizeof_T sizeof_T_pos) by (done || lia).
    set (c := Vec.m_capacity this + Vec.m_capacity this / 2 + 2) in *.
    assert (0 <= Vec.m_capacity this / 2) by (apply Z.div_pos; lia).
    destruct (reAllocate_spec size_bits sizeof_T trivially_destructible
                sizeof_T_pos _ _ _ c Hrepr Ha Hdel)
      as (st1 & Hre & Hrepr1 & Htr1).
    rewrite take_ge in Hrepr1, Htr1 by lia.
    rewrite (bind_Ok _ _ _ _ _ Hre).
    rewrite (bind_Ok _ _ _ _ _
               (value_of_reAllocate _ _ _ _ _ _ _ Hval Hapart Hre)).
    destruct (store_back size_bits _ _ _ x Hrepr1)
      as (st2 & Hst & Hrepr2 & Htr2); [simpl; lia |].
    simpl in Hst. rewrite (bind_Ok _ _ _ _ _ Hst), ret_Ok.
    eexists _, st2. split; [done |]. split; [done |].
    split; [by eapply Hnext |]. split; [by eapply Hget |].
    split; [|intros; lia]. intros _. simpl. by rewrite Htr2.
  - (* room left: read the reference, store in place *)
    rewrite (bind_Ok _ _ _ this st) by done.
    rewrite (bind_Ok _ _ _ _ _ Hval).
    destruct (store_back size_bits _ _ _ x Hrepr)
      as (st2 & Hst & Hrepr2 & Htr2); [lia |].
    rewrite (bind_Ok _ _ _ _ _ Hst), ret_Ok.
    eexists _, st2. split; [done |]. split; [done |].
    split; [by eapply Hnext |]. split; [by eapply Hget |].
    split; [intros; lia | done].
Qed.

(** C2. [pushBack] on a full vector does not always make the value the new
    last element. Its parameter is a reference, and it is read after the
    reallocation: where it refers to an element of the vector itself, as in
    [v.pushBack(v[i])], that element has been moved from and destroyed and
    its block deleted by then. And where the elements have a destructor,
    the reallocation of a full vector with a block does not return,
    whatever the value. *)
Theorem pushBack_full_undefined this st xs q (i : nat) x :
  repr this st xs -> Vec.m_data this = Some q ->
  Vec.m_size this = Vec.m_capacity this ->
  allocatable (Vec.m_capacity this + Vec.m_capacity this / 2 + 2) ->
  xs !! i = Some x ->
  Vec.value_of (Vec.Element (Some q, Z.of_nat i)) st = Ok (x, st)
  /\ pushBack this (Vec.Element (Some q, Z.of_nat i)) st = UB
  /\ (trivially_destructible = false ->
      forall value, pushBack this value st = UB).
Proof.
  intros Hrepr Hq Hfull Ha Hx. pose proof Hrepr as [Hsize Hle Hfit Hb].
  assert (Hfails : trivially_destructible = false ->
            forall value, pushBack this value st = UB).
  { intros Htriv value.
    apply (pushBack_aborts _ _ _ _ _ q); [done | done | lia]. }
  split; [|split; [|done]].
  - unfold Vec.block_holds in Hb. rewrite Hq in Hb.
    destruct Hb as (cells & Hcells & _ & Htake). simpl.
    apply (load_Ok _ _ cells); [done |]. by eapply holds_lookup.
  - destruct trivially_destructible eqn:Htriv; [|by apply Hfails].
    unfold Vec.pushBack. rewrite decide_True by lia.
    rewrite (grow_exact size_bits sizeof_T sizeof_T_pos) by (done || lia).
    destruct (reAllocate_spec size_bits sizeof_T true sizeof_T_pos _ _ _ _
                Hrepr Ha) as (st1 & Hre & _); [by left |].
    rewrite (bind_Ok _ _ _ _ _ Hre).
    apply reAllocate_frame in Hre as (_ & _ & Hgone).
    unfold mbind, M_bind. simpl. unfold Vec.load, Vec.slot. simpl.
    by rewrite (Hgone q Hq).
Qed.

(** C3. Where the elements have a destructor, an interleaving of
    [pushBack], [popBack] and [clear] on an empty vector that holds more
    than two elements at a time does not run to its end: the first
    [pushBack] allocates two slots, and the [pushBack] that finds them full
    reallocates and deletes the block with [delete[]]. *)
Theorem run_undefined_beyond_two ops st :
  trivially_destructible = false -> allocatable 2 ->
  (2 < Vec.peak 0 ops)%nat ->
  run ops Vec.Vector_new st = UB.
Proof.
  intros Htriv Ha.
  enough (Hgen : forall ops this st xs,
            repr this st xs ->
            match Vec.m_data this with
            | Some _ => Vec.m_capacity this
            | None => 2
            end < Z.of_nat (Vec.peak (length xs) ops) ->
            run ops this st = UB).
  { intros Hpeak. apply (Hgen ops Vec.Vector_new st []).
    - apply repr_new. by eapply allocatable_width.
    - simpl. lia. }
  clear ops st. induction ops as [|o ops IH]; intros this st xs Hrepr Hpeak.
  { pose proof Hrepr as [Hsize Hle _ Hb]. unfold Vec.block_holds in Hb.
    simpl in Hpeak. destruct (Vec.m_data this); lia. }
  pose proof Hrepr as [Hsize Hle _ Hb]. unfold Vec.block_holds in Hb.
  assert (Hstep : forall v st1 ys,
            Vec.step size_bits sizeof_T trivially_destructible this o st
            = Ok (v, st1) ->
            repr v st1 ys ->
            match Vec.m_data v with
            | Some _ => Vec.m_capacity v
            | None => 2
            end < Z.of_nat (Vec.peak (length ys) ops) ->
            run (o :: ops) this st = UB).
  { intros v st1 ys Hs Hrepr1 Hpeak1. simpl.
    rewrite (bind_Ok _ _ _ _ _ Hs). by eapply IH. }
  destruct o as [x| |]; simpl in Hpeak.
  - (* pushBack *)
    destruct (Vec.m_data this) as [q|] eqn:Hq.
    + destruct (decide (Vec.m_size this = Vec.m_capacity this)) as [Hfull|Hroom].
      * simpl. unfold mbind at 1, M_bind at 1.
        rewrite (pushBack_aborts size_bits sizeof_T _ _ _ q); [done..|lia].
      * destruct (pushBack_spec size_bits sizeof_T trivially_destructible
                    sizeof_T_pos this st xs x Hrepr)
          as (v & st1 & Hpush & Hrepr1 & Hcases); [done |].
        rewrite decide_False in Hcases by done.
        destruct Hcases as (Hcap & Hdata & _).
        apply (Hstep v st1 (xs ++ [x])); [done | done |].
        rewrite Hdata, Hq, Hcap, length_app. simpl.
        by rewrite Nat.add_1_r.
    + assert (xs = []) as -> by (apply length_zero_iff_nil; lia).
      destruct (pushBack_spec size_bits sizeof_T trivially_destructible
                  sizeof_T_pos this st [] x Hrepr)
        as (v & st1 & Hpush & Hrepr1 & Hcases).
      { intros _. rewrite Hb. split; [done | by right]. }
      rewrite decide_True in Hcases by (simpl in Hsize; lia).
      destruct Hcases as (Hcap & Hdata & _).
      apply (Hstep v st1 ([] ++ [x])); [done | done |].
      rewrite Hdata, Hcap, Hb. exact Hpeak.
  - (* popBack *)
    destruct (popBack_spec size_bits this st xs Hrepr)
      as (v & st1 & Hpop & Hrepr1 & Hcap & Hdata).
    apply (Hstep v st1 (removelast xs)); [done | done |].
    rewrite Hdata, Hcap.
    replace (length (removelast xs)) with (Nat.pred (length xs))
      by (rewrite removelast_firstn_len, length_take; lia).
    destruct (Vec.m_data this); lia.
  - (* clear *)
    destruct (clear_spec size_bits this st xs Hrepr)
      as (st1 & Hclear & Hrepr1 & _).
    eapply (Hstep _ st1 []); [done | done |].
    simpl. destruct (Vec.m_data this); lia.
Qed.

(** C1. Where the elements have a destructor, the round trip ends at the
    third [pushBack]: two values go into the two slots the first [pushBack]
    allocates and are read back, and no [pushBack] returns on the vector
    that holds them, so that no list of more than two values is appended. *)
Theorem pushBack_all_undefined xs st :
  trivially_destructible = false -> allocatable 2 ->
  (2 < length xs)%nat ->
  pushBack_all xs Vec.Vector_new st = UB
  /\ exists v st',
       pushBack_all (take 2 xs) Vec.Vector_new st = Ok (v, st')
       /\ repr v st' (take 2 xs)
       /\ (forall i x, take 2 xs !! i = Some x ->
             Vec.get v (Z.of_nat i) st' = Ok (Vec.Obj x, st'))
       /\ forall value, pushBack v value st' = UB.
Proof.
  intros Htriv Ha Hlen.
  destruct xs as [|a [|b [|c xs]]]; try (simpl in Hlen; lia). clear Hlen.
  assert (Hnew : repr Vec.Vector_new st [])
    by (apply repr_new; by eapply allocatable_width).
  destruct (pushBack_spec size_bits sizeof_T trivially_destructible
              sizeof_T_pos Vec.Vector_new st [] a Hnew)
    as (v1 & st1 & Hpush1 & Hrepr1 & Hcases1).
  { intros _. split; [done | by right]. }
  rewrite decide_True in Hcases1 by done.
  destruct Hcases1 as (Hcap1 & Hdata1 & _).
  change (Vec.m_capacity v1 = 2) in Hcap1.
  pose proof Hrepr1 as [Hsize1 _ _ _]. simpl in Hsize1.
  destruct (pushBack_spec size_bits sizeof_T trivially_destructible
              sizeof_T_pos v1 st1 [a] b Hrepr1)
    as (v2 & st2 & Hpush2 & Hrepr2 & Hcases2); [lia |].
  rewrite decide_False in Hcases2 by lia.
  destruct Hcases2 as (Hcap2 & Hdata2 & _).
  pose proof Hrepr2 as [Hsize2 _ _ _]. simpl in Hsize2.
  assert (Hstop : forall value, pushBack v2 value st2 = UB).
  { intros value.
    apply (pushBack_aborts _ _ _ _ _ (fresh (dom (Vec.blocks st))));
      [done | congruence | lia]. }
  split.
  - simpl. rewrite (bind_Ok _ _ _ _ _ Hpush1), (bind_Ok _ _ _ _ _ Hpush2).
    unfold mbind at 1, M_bind at 1. by rewrite Hstop.
  - exists v2, st2. simpl.
    rewrite (bind_Ok _ _ _ _ _ Hpush1), (bind_Ok _ _ _ _ _ Hpush2).
    split; [done |]. split; [done |]. split; [|done].
    intros i x Hx. by eapply get_spec.
Qed.

End VectorReferences.

(** ** Array: access within and outside the bounds *)

Section ArrayFacts.
Context {T : Type}.
Variables S size_bits : Z.
Implicit Types (a : Arr.Array (T := T)).

Lemma Array_read_at a (i : nat) :
  Arr.read a (Z.of_nat i) = from_option Ok UB (Arr.data a !! i).
Proof.
  unfold Arr.read. rewrite decide_True by lia. rewrite Nat2Z.id.
  by destruct (Arr.data a !! i).
Qed.

(** In an array that holds its [S] elements, [front] reads the first one
    and [back] the last, [at] and [operator[]] read the element at the
    index, and a read at an index from [S] on is undefined. With [S = 0],
    [back] is the element at [SIZE_MAX] and reading it is undefined too. *)
Theorem Array_reads a (i : nat) :
  Z.of_nat (length (Arr.data a)) = S -> S < 2 ^ size_bits ->
  (r ← Arr.front a; Arr.read a r) = from_option Ok UB (head (Arr.data a))
  /\ (r ← Arr.back S size_bits a; Arr.read a r)
     = from_option Ok UB (last (Arr.data a))
  /\ (r ← Arr.at_ S a (Z.of_nat i); Arr.read a r)
     = from_option Ok UB (Arr.data a !! i)
  /\ (r ← Arr.operator_index a (Z.of_nat i); Arr.read a r)
     = from_option Ok UB (Arr.data a !! i)
  /\ (S <= Z.of_nat i -> (r ← Arr.at_ S a (Z.of_nat i); Arr.read a r) = UB).
Proof.
  intros Hlen HS.
  assert (Hat : (r ← Arr.at_ S a (Z.of_nat i); Arr.read a r)
                = from_option Ok UB (Arr.data a !! i)).
  { unfold Arr.at_. case_decide; apply Array_read_at. }
  split; [|split; [|split; [done | split]]].
  - rewrite head_lookup. apply (Array_read_at a 0).
  - rewrite last_lookup. unfold Arr.back.
    destruct (Arr.data a) as [|x l] eqn:Hdata.
    + simpl in Hlen. subst S. simpl.
      assert (Hpos : 0 < 2 ^ size_bits) by lia.
      replace (-1 mod 2 ^ size_bits) with (2 ^ size_bits - 1).
      2:{ apply Z.mod_unique with (q := -1); lia. }
      unfold Arr.read. rewrite Hdata. case_decide; [|done].
      by destruct (Z.to_nat (2 ^ size_bits - 1)).
    + rewrite <- Hdata in *.
      assert (0 < S) by (rewrite <- Hlen, Hdata; simpl; lia).
      change ((r ← mret ((S - 1) mod 2 ^ size_bits); Arr.read a r))
        with (Arr.read a ((S - 1) mod 2 ^ size_bits)).
      rewrite Z.mod_small by lia.
      replace (S - 1) with (Z.of_nat (Nat.pred (length (Arr.data a)))) by lia.
      apply Array_read_at.
  - apply (Array_read_at a i).
  - intros Hout. rewrite Hat, lookup_ge_None_2; [done | lia].
Qed.

(** Writing through the reference [at] returns, at an index in range,
    replaces that element and no other, and the array keeps its size. *)
Theorem Array_assign_read a (i j : nat) y :
  (i < length (Arr.data a))%nat ->
  exists a',
    (r ← Arr.at_ S a (Z.of_nat i); Arr.assign a r y) = Ok a'
    /\ length (Arr.data a') = length (Arr.data a)
    /\ (r ← Arr.at_ S a' (Z.of_nat j); Arr.read a' r)
       = if decide (i = j) then Ok y
         else (r ← Arr.at_ S a (Z.of_nat j); Arr.read a r).
Proof.
  intros Hi. destruct (lookup_lt_is_Some_2 _ _ Hi) as [x Hx].
  assert (Hat : forall (b : Arr.Array (T := T)) k, Arr.at_ S b k = Ok k)
    by (intros b k; unfold Arr.at_; by case_decide).
  exists {| Arr.data := <[i := y]> (Arr.data a) |}. rewrite !Hat. split; [|split].
  - change ((r ← Ok (Z.of_nat i); Arr.assign a r y))
      with (Arr.assign a (Z.of_nat i) y).
    unfold Arr.assign. rewrite decide_True by lia.
    by rewrite Nat2Z.id, Hx.
  - simpl. apply length_insert.
  - change (Arr.read {| Arr.data := <[i:=y]> (Arr.data a) |} (Z.of_nat j)
            = if decide (i = j) then Ok y else Arr.read a (Z.of_nat j)).
    rewrite !Array_read_at. simpl. rewrite list_lookup_insert.
    case_decide as Hij; [|by rewrite decide_False by tauto].
    destruct Hij as [-> _]. by rewrite decide_True.
Qed.

End ArrayFacts.

(** ** Function: the life of a callable *)

Section FunctionMore.
Context {R Args C : Type}.
Implicit Types (f g : Fn.Function) (h : Fn.heap R Args C) (p q : loc).
Implicit Types (c d : Fn.Callable R Args C) (args : Args).

Lemma new_destroy c h :
  (p ← Fn.new c; Fn.Function_destroy {| Fn.m_callable := Some p |}) h = Ok (tt, h).
Proof.
  unfold Fn.new, Fn.Function_destroy, Fn.delete_, mbind, M_bind. simpl.
  rewrite lookup_insert_eq, delete_insert_id by apply fresh_callable.
  by destruct h.
Qed.

(** A wrapper made by [bind], of a function or of a method, or by the
    constructor from a function pointer, and then destroyed, leaves the
    heap as it was: the callable it allocated is deleted, once. *)
Theorem construct_destroy_restores h (functionPtr : Args -> R) o
    (method : C -> Args -> R * C) :
  (f ← Fn.bind functionPtr; Fn.Function_destroy f) h = Ok (tt, h)
  /\ (f ← Fn.bind_member o method; Fn.Function_destroy f) h = Ok (tt, h)
  /\ (f ← Fn.Function_of_pointer functionPtr; Fn.Function_destroy f) h
     = Ok (tt, h).
Proof.
  split; [|split].
  - apply (new_destroy (Fn.FunctionCallable functionPtr) h).
  - apply (new_destroy (Fn.MemberCallable o method) h).
  - apply (new_destroy (Fn.FunctionCallable functionPtr) h).
Qed.

(** A wrapper and its copy are destroyed one after the other without a
    double delete, in either order, and both callables are gone then;
    destroying the copy alone undoes the copy. *)
Theorem copy_destroy_both f h p c :
  Fn.m_callable f = Some p -> Fn.callables h !! p = Some c ->
  (g ← Fn.Function_copy f; Fn.Function_destroy g) h = Ok (tt, h)
  /\ (g ← Fn.Function_copy f; Fn.Function_destroy f;; Fn.Function_destroy g) h
     = Ok (tt, Fn.Heap (delete p (Fn.callables h)) (Fn.objects h))
  /\ (g ← Fn.Function_copy f; Fn.Function_destroy g;; Fn.Function_destroy f) h
     = Ok (tt, Fn.Heap (delete p (Fn.callables h)) (Fn.objects h)).
Proof.
  intros Hf Hp. set (q := fresh (dom (Fn.callables h))).
  assert (Hq : Fn.callables h !! q = None) by apply fresh_callable.
  assert (Hqp : q <> p) by congruence.
  rewrite !(bind_Ok _ _ _ _ _ (Function_copy_spec f h p c Hf Hp)). fold q.
  unfold Fn.Function_destroy. rewrite Hf. cbn [Fn.m_callable].
  split; [|split].
  - erewrite delete_Ok by (simpl; apply lookup_insert_eq). simpl.
    rewrite delete_insert_id by done. by destruct h.
  - erewrite bind_Ok; cycle 1.
    { eapply delete_Ok. simpl. by rewrite lookup_insert_ne. }
    erewrite delete_Ok; cycle 1.
    { simpl. rewrite lookup_delete_ne by done. apply lookup_insert_eq. }
    simpl. do 2 f_equal. f_equal.
    rewrite delete_insert_ne by done.
    apply delete_insert_id. by rewrite lookup_delete_ne.
  - erewrite bind_Ok; cycle 1.
    { eapply delete_Ok. simpl. apply lookup_insert_eq. }
    erewrite delete_Ok; cycle 1.
    { simpl. by rewrite delete_insert_id. }
    simpl. by rewrite delete_insert_id.
Qed.

(** Assignment from another wrapper. The statements of [operator=] delete
    the old target and leave [this] with a copy of the target of [other] at
    an address of its own; a call through it shows what a call through
    [other] shows, and there are as many live callables as before. Then
    the function ends without the [return] it owes: the call as a whole
    has no defined outcome. *)
Theorem Function_assign_takes_over f g h p q c d :
  Fn.m_callable f = Some p -> Fn.callables h !! p = Some c ->
  Fn.m_callable g = Some q -> Fn.callables h !! q = Some d -> p <> q ->
  Fn.Function_assign f g h = UB
  /\ exists r h',
    Fn.Function_assign_body f g h = Ok ({| Fn.m_callable := Some r |}, h')
    /\ r <> q
    /\ Fn.callables h' !! r = Some d
    /\ Fn.callables h' !! q = Some d
    /\ (forall t, t <> p -> t <> r -> Fn.callables h' !! t = Fn.callables h !! t)
    /\ (r <> p -> Fn.callables h' !! p = None)
    /\ Fn.objects h' = Fn.objects h
    /\ size (Fn.callables h') = size (Fn.callables h)
    /\ forall args,
         Fn.observe (Fn.Function_call {| Fn.m_callable := Some r |} args h')
         = Fn.observe (Fn.Function_call g args h).
Proof.
  intros Hf Hp Hg Hq Hne.
  set (released := delete p (Fn.callables h)).
  set (r := fresh (dom released)).
  assert (Hr : released !! r = None) by apply not_elem_of_dom, is_fresh.
  assert (Hq' : released !! q = Some d) by (unfold released; by rewrite lookup_delete_ne).
  assert (Hrq : r <> q) by congruence.
  pose proof (Function_assign_other f g h p q c d Hf Hp Hg Hq Hne) as Hbody.
  cbv zeta in Hbody. fold released r in Hbody.
  split.
  { unfold Fn.Function_assign. by rewrite (bind_Ok _ _ _ _ _ Hbody). }
  exists r. eexists. split; [exact Hbody |]. simpl.
  split; [done |]. split; [apply lookup_insert_eq |].
  split; [by rewrite lookup_insert_ne |]. split; [|split; [|split; [done | split]]].
  - intros t Htp Htr. rewrite lookup_insert_ne by done.
    unfold released. by rewrite lookup_delete_ne.
  - intros Hrp. rewrite lookup_insert_ne by done. apply lookup_delete_eq.
  - rewrite map_size_insert_None by done.
    unfold released. rewrite map_size_delete_Some by (by eexists).
    assert (size (Fn.callables h) <> O); [|lia].
    intros Hz%map_size_empty_inv. by rewrite Hz in Hp.
  - intros args.
    rewrite (Function_call_Ok _ _ r d), (Function_call_Ok g h q d); try done.
    + by apply observe_call.
    + simpl. apply lookup_insert_eq.
Qed.

(** A call keeps the callables and the addresses of the objects. *)
Lemma call_keeps_heap f args h x h' :
  Fn.Function_call f args h = Ok (x, h') ->
  Fn.callables h' = Fn.callables h
  /\ dom (Fn.objects h') = dom (Fn.objects h).
Proof.
  unfold Fn.Function_call.
  intros (c & h1 & Hderef & Hcall)%bind_inv.
  unfold Fn.deref in Hderef.
  destruct (Fn.m_callable f ≫= _); [|done]. injection Hderef as -> <-.
  destruct c as [fp|o m]; simpl in Hcall.
  - by injection Hcall as _ <-.
  - destruct (Fn.objects h !! o) as [obj|] eqn:Ho; [|done].
    destruct (m obj args) as [y obj']. injection Hcall as _ <-. simpl.
    split; [done |]. by apply dom_insert_lookup_L.
Qed.

(** A wrapper bound to a method of the object at [o] runs the method on
    that object and stores the object back; where there is no object at
    [o], the call is undefined. *)
Theorem bind_member_call h o (method : C -> Args -> R * C) args :
  Fn.observe ((f ← Fn.bind_member o method; Fn.Function_call f args) h)
  = match Fn.objects h !! o with
    | Some obj => Ok ((method obj args).1,
                      <[o := (method obj args).2]> (Fn.objects h))
    | None => UB
    end.
Proof.
  unfold Fn.bind_member, Fn.new, Fn.Function_call, Fn.deref, mbind, M_bind.
  simpl. rewrite lookup_insert_eq. simpl.
  destruct (Fn.objects h !! o) as [obj|]; [|done].
  by destruct (method obj args).
Qed.

End FunctionMore.

(** ** Function: exclusive ownership along a program *)

Section Programs.
Context {R Args C : Type}.
Implicit Types (f g : Fn.Function) (h : Fn.heap R Args C) (p q : loc).
Implicit Types (c d : Fn.Callable R Args C) (ws : list Fn.Function).
Implicit Types (s : Fn.stmt R Args C) (alive : gset loc).

Lemma exclusive_alloc ws h c :
  Fn.exclusive ws h ->
  Fn.exclusive (ws ++ [{| Fn.m_callable := Some (fresh (dom (Fn.callables h))) |}])
    (Fn.Heap (<[fresh (dom (Fn.callables h)) := c]> (Fn.callables h))
             (Fn.objects h)).
Proof.
  intros (Hown & Hdist & Hsize). set (p := fresh (dom (Fn.callables h))).
  assert (Hp : Fn.callables h !! p = None) by apply fresh_callable.
  assert (Hold : forall i f, ws !! i = Some f -> Fn.m_callable f <> Some p).
  { intros i f Hf Heq. destruct (Hown i f Hf) as (p0 & c0 & Hp0 & Hc0).
    congruence. }
  split; [|split].
  - intros i f [[_ Hf]|[_ <-]]%lookup_snoc_Some; simpl.
    + destruct (Hown i f Hf) as (p0 & c0 & Hp0 & Hc0).
      exists p0, c0. split; [done |]. rewrite lookup_insert_ne; [done | congruence].
    + exists p, c. split; [done | apply lookup_insert_eq].
  - intros i j f g [[_ Hf]|[-> <-]]%lookup_snoc_Some
      [[_ Hg]|[-> <-]]%lookup_snoc_Some Heq; simpl in *.
    + by eapply Hdist.
    + by destruct (Hold i f Hf).
    + by destruct (Hold j g Hg).
    + done.
  - simpl. rewrite map_size_insert_None by done.
    rewrite length_app. simpl. lia.
Qed.

Lemma exclusive_destroy ws h i f p c :
  Fn.exclusive ws h -> ws !! i = Some f ->
  Fn.m_callable f = Some p -> Fn.callables h !! p = Some c ->
  Fn.exclusive (delete i ws)
    (Fn.Heap (delete p (Fn.callables h)) (Fn.objects h)).
Proof.
  intros (Hown & Hdist & Hsize) Hf Hfp Hp.
  assert (Hothers : forall k fk, k <> i -> ws !! k = Some fk ->
            exists pk ck, Fn.m_callable fk = Some pk
              /\ delete p (Fn.callables h) !! pk = Some ck).
  { intros k fk Hk Hfk. destruct (Hown k fk Hfk) as (pk & ck & Hpk & Hck).
    assert (pk <> p).
    { intros ->. apply Hk. eapply Hdist; [done | done | congruence]. }
    exists pk, ck. split; [done |]. by rewrite lookup_delete_ne. }
  split; [|split].
  - intros k fk. rewrite list_lookup_delete. intros Hfk. simpl.
    eapply Hothers; [|exact Hfk]. case_decide; lia.
  - intros k1 k2 f1 f2. rewrite !list_lookup_delete. intros Hf1 Hf2 Heq.
    pose proof (Hdist _ _ _ _ Hf1 Hf2 Heq). repeat case_decide; lia.
  - simpl. rewrite map_size_delete_Some by (by eexists).
    rewrite length_delete by (by eexists). lia.
Qed.


Lemma bound_alive_from h h' :
  Fn.bound_alive h -> dom (Fn.objects h') = dom (Fn.objects h) ->
  (forall t c, Fn.callables h' !! t = Some c ->
     (exists t0, Fn.callables h !! t0 = Some c)
     \/ (forall o m, c = Fn.MemberCallable o m -> o ∈ dom (Fn.objects h))) ->
  Fn.bound_alive h'.
Proof.
  intros Halive Hdom Hfrom t o m Ht. rewrite Hdom.
  destruct (Hfrom t _ Ht) as [[t0 Ht0]|Hnew]; [by eapply Halive | by eapply Hnew].
Qed.

Lemma bound_alive_alloc h c :
  Fn.bound_alive h ->
  (forall o m, c = Fn.MemberCallable o m -> o ∈ dom (Fn.objects h)) ->
  Fn.bound_alive
    (Fn.Heap (<[fresh (dom (Fn.callables h)) := c]> (Fn.callables h))
             (Fn.objects h)).
Proof.
  intros Halive Hc. apply (bound_alive_from h); [done | done |].
  intros t c' Ht. simpl in Ht.
  apply lookup_insert_Some in Ht as [[_ <-]|[_ Ht]]; [by right | left; by exists t].
Qed.

(** A call through a wrapper of the row goes through. *)
Lemma Function_call_alive f h p c args :
  Fn.bound_alive h ->
  Fn.m_callable f = Some p -> Fn.callables h !! p = Some c ->
  exists x h', Fn.Function_call f args h = Ok (x, h').
Proof.
  intros Halive Hf Hp. rewrite (Function_call_Ok f h p c args Hf Hp).
  destruct c as [fp|o m]; simpl; [by eexists _, _ |].
  pose proof (Halive p o m Hp) as Ho. apply elem_of_dom in Ho as [obj Ho].
  rewrite Ho.
  destruct (m obj args). by eexists _, _.
Qed.

(** One admissible statement runs and keeps ownership exclusive. *)
Lemma exec_keeps ws h alive s :
  Fn.exclusive ws h -> Fn.bound_alive h -> dom (Fn.objects h) = alive ->
  Fn.admissible alive s ->
  exists ws' h',
    Fn.exec ws s h = Ok (ws', h')
    /\ Fn.exclusive ws' h' /\ Fn.bound_alive h'
    /\ dom (Fn.objects h') = alive.
Proof.
  intros Hex Halive Hdom Hadm. destruct s as [fp|o m|i|i j|i args|i]; simpl.
  - eexists _, _. split; [reflexivity |].
    split; [by apply exclusive_alloc |]. split; [|done].
    by apply bound_alive_alloc.
  - eexists _, _. split; [reflexivity |].
    split; [by apply exclusive_alloc |]. split; [|done].
    apply bound_alive_alloc; [done |]. intros o' m' [= <- <-].
    simpl in Hadm. by rewrite Hdom.
  - destruct (ws !! i) as [f|] eqn:Hf; [|by exists ws, h].
    destruct Hex as (Hown & Hrest). destruct (Hown i f Hf) as (p & c & Hp & Hc).
    rewrite (bind_Ok _ _ _ _ _ (Function_copy_spec f h p c Hp Hc)).
    eexists _, _. split; [reflexivity |].
    split; [by apply exclusive_alloc |]. split; [|done].
    apply bound_alive_alloc; [done |]. intros o m ->. by eapply Halive.
  - destruct Hadm.
  - destruct (ws !! i) as [f|] eqn:Hf; [|by exists ws, h].
    pose proof Hex as (Hown & _).
    destruct (Hown i f Hf) as (p & c & Hp & Hc).
    destruct (Function_call_alive f h p c args Halive Hp Hc) as (x & h' & Hcall).
    destruct (call_keeps_heap f args h x h' Hcall) as [Hsame Hobj].
    rewrite (bind_Ok _ _ _ _ _ Hcall). exists ws, h'.
    split; [done |]. split; [|split; [|congruence]].
    + unfold Fn.exclusive. by rewrite Hsame.
    + apply (bound_alive_from h); [done | done |].
      intros t c' Ht. left. exists t. by rewrite <- Hsame.
  - destruct (ws !! i) as [f|] eqn:Hf; [|by exists ws, h].
    pose proof Hex as (Hown & _).
    destruct (Hown i f Hf) as (p & c & Hp & Hc).
    unfold Fn.Function_destroy. rewrite Hp.
    rewrite (bind_Ok _ _ _ _ _ (delete_Ok h p c Hc)).
    eexists _, _. split; [reflexivity |].
    split; [by eapply exclusive_destroy |]. split; [|done].
    apply (bound_alive_from h); [done | done |].
    intros t c' Ht. simpl in Ht.
    apply lookup_delete_Some in Ht as [_ Ht]. left. by exists t.
Qed.

(** Any program of admissible statements runs to its end without undefined
    behaviour, from a row of wrappers with exclusive ownership to one. *)
Lemma exec_all_keeps ss : forall ws h alive,
  Fn.exclusive ws h -> Fn.bound_alive h -> dom (Fn.objects h) = alive ->
  Forall (Fn.admissible alive) ss ->
  exists ws' h',
    Fn.exec_all ss ws h = Ok (ws', h')
    /\ Fn.exclusive ws' h' /\ Fn.bound_alive h'
    /\ dom (Fn.objects h') = alive.
Proof.
  induction ss as [|s ss IH]; intros ws h alive Hex Halive Hdom Hadm.
  - by exists ws, h.
  - apply Forall_cons in Hadm as [Hs Hss].
    destruct (exec_keeps ws h alive s Hex Halive Hdom Hs)
      as (ws1 & h1 & Hexec & Hex1 & Halive1 & Hdom1).
    destruct (IH ws1 h1 alive Hex1 Halive1 Hdom1 Hss)
      as (ws' & h' & Hrun & Hinv).
    exists ws', h'. split; [|done].
    simpl. by rewrite (bind_Ok _ _ _ _ _ Hexec).
Qed.

Lemma exec_all_app ss1 ss2 ws h :
  Fn.exec_all (ss1 ++ ss2) ws h
  = (ws1 ← Fn.exec_all ss1 ws; Fn.exec_all ss2 ws1) h.
Proof.
  revert ws h. induction ss1 as [|s ss1 IH]; intros ws h; simpl.
  - done.
  - unfold mbind, M_bind.
    destruct (Fn.exec ws s h) as [[ws1 h1]|]; [|done]. apply IH.
Qed.

(** A program that binds, copies, calls and destroys, in any order, and
    assigns nothing, has no undefined behaviour: no callable is deleted
    twice or used after it is deleted. At its end every wrapper owns a live
    callable of its own and no callable is left without an owner. An
    assignment between two of its wrappers then has no defined outcome. *)
Theorem programs_keep_ownership ss (objs : gmap loc C) :
  Forall (Fn.admissible (dom objs)) ss ->
  exists ws h',
    Fn.exec_all ss [] (Fn.Heap ∅ objs) = Ok (ws, h')
    /\ Fn.exclusive ws h'
    /\ dom (Fn.objects h') = dom objs
    /\ forall i j rest, (i < length ws)%nat -> (j < length ws)%nat ->
         Fn.exec_all (ss ++ Fn.Assign i j :: rest) [] (Fn.Heap ∅ objs) = UB.
Proof.
  intros Hadm.
  destruct (exec_all_keeps ss [] (Fn.Heap ∅ objs) (dom objs))
    as (ws & h' & Hrun & Hex & _ & Hdom); [| |done |done |].
  - split; [|split]; [by intros i f Hf | by intros i j f g Hf | done].
  - intros p o m Hp. simpl in Hp. by rewrite lookup_empty in Hp.
  - exists ws, h'. do 3 (split; [done |]).
    intros i j rest Hi Hj.
    destruct (lookup_lt_is_Some_2 ws i Hi) as [f Hf].
    destruct (lookup_lt_is_Some_2 ws j Hj) as [g Hg].
    rewrite exec_all_app, (bind_Ok _ _ _ _ _ Hrun). simpl.
    unfold mbind at 1, M_bind at 1. rewrite Hf, Hg.
    unfold mbind, M_bind. by rewrite Function_assign_undefined.
Qed.

End Programs.

(** ** More instances *)

Lemma popBack_removes_last_witness :
  exists v st',
    Vec.popBack 16 one_of_two one_of_two_mem = Ok (v, st')
    /\ Vec.repr 16 v st' []
    /\ Vec.m_capacity v = 2
    /\ Vec.m_data v = Some 1%positive
    /\ ([10%nat] = [] -> v = one_of_two /\ st' = one_of_two_mem)
    /\ ([10%nat] <> [] ->
        Vec.m_size v = 0
        /\ Vec.trace st' = [Vec.EvDtor (Some 1%positive) 0]
        /\ Vec.slot (Some 1%positive) 0 st' = Some Vec.Dead).
Proof.
  exact (popBack_removes_last 16 one_of_two one_of_two_mem [10%nat]
           repr_one_of_two).
Defined.

Lemma repr_two_of_two : Vec.repr 16 two_of_two two_of_two_mem [10; 20]%nat.
Proof.
  split; simpl; [lia | lia | lia |].
  eexists. split; [|split]; reflexivity.
Defined.

Lemma pushBack_popBack_witness :
  exists v st',
    (v1 ← Vec.pushBack 16 2 true two_of_two (Vec.Outside 30%nat);
     Vec.popBack 16 v1) two_of_two_mem
    = Ok (v, st')
    /\ Vec.repr 16 v st' [10; 20]%nat
    /\ Vec.m_size v = 2
    /\ 2 <= Vec.m_capacity v.
Proof.
  refine (pushBack_popBack 16 2 true _ two_of_two two_of_two_mem [10; 20]%nat
            30%nat repr_two_of_two _).
  - lia.
  - intros _. split; [|by left].
    split; vm_compute; [discriminate | reflexivity].
Defined.

Lemma reserved_capacity_witness :
  exists v0 st0 v st',
    Vec.Vector_with_capacity 16 2 false 4 (Vec.Mem ∅ []) = Ok (v0, st0)
    /\ Vec.pushBack_all 16 2 false [10; 20; 30]%nat v0 st0 = Ok (v, st')
    /\ Vec.repr 16 v st' [10; 20; 30]%nat
    /\ Vec.m_capacity v = 4
    /\ Vec.m_data v = Vec.m_data v0
    /\ Vec.trace st' = [Vec.EvNew 1%positive 8].
Proof.
  refine (reserved_capacity 16 2 false _ [10; 20; 30]%nat (Vec.Mem ∅ []) 4 _ _).
  - lia.
  - split; vm_compute; [discriminate | reflexivity].
  - simpl. lia.
Defined.

Lemma operator_index_assign_witness :
  exists st',
    (r ← Vec.operator_index one_of_two 0; Vec.assign r 11%nat) one_of_two_mem
    = Ok (tt, st')
    /\ Vec.repr 16 one_of_two st' [11%nat]
    /\ Vec.trace st' = []
    /\ Vec.get one_of_two 0 st' = Ok (Vec.Obj 11%nat, st').
Proof.
  refine (operator_index_assign 16 one_of_two one_of_two_mem [10%nat] O 11%nat
            repr_one_of_two _).
  simpl. lia.
Defined.

Lemma pushBack_all_logarithmic_witness :
  exists v st' (k : nat),
    Vec.pushBack_all 16 2 true [10; 20; 30]%nat Vec.Vector_new (Vec.Mem ∅ [])
    = Ok (v, st')
    /\ Vec.allocations (Vec.trace st') = (0 + k)%nat
    /\ 2 * 3 ^ Z.of_nat k <= 2 ^ Z.of_nat k * (3 + 2).
Proof.
  refine (pushBack_all_logarithmic 16 2 true _ [10; 20; 30]%nat (Vec.Mem ∅ [])
            _ _).
  - lia.
  - reflexivity.
  - split; vm_compute; [discriminate | reflexivity].
Defined.

Lemma capacity_within_peak_witness :
  exists v st',
    Vec.run 16 2 true
      [Vec.Push 10; Vec.Push 20; Vec.Push 30; Vec.Pop; Vec.Clear]%nat
      Vec.Vector_new (Vec.Mem ∅ []) = Ok (v, st')
    /\ 3 <= Vec.m_capacity v
    /\ Vec.m_capacity v <= 3 + 3 / 2 + 2.
Proof.
  refine (capacity_within_peak 16 2 true _
            [Vec.Push 10; Vec.Push 20; Vec.Push 30; Vec.Pop; Vec.Clear]%nat
            (Vec.Mem ∅ []) _ _).
  - lia.
  - reflexivity.
  - split; vm_compute; [discriminate | reflexivity].
Defined.

Lemma capacity_never_shrinks_witness :
  exists v st',
    Vec.run 16 2 true [Vec.Pop; Vec.Push 20; Vec.Push 30; Vec.Clear]%nat
      one_of_two one_of_two_mem = Ok (v, st')
    /\ 2 <= Vec.m_capacity v.
Proof.
  refine (capacity_never_shrinks 16 2 true _
            [Vec.Pop; Vec.Push 20; Vec.Push 30; Vec.Clear]%nat
            one_of_two one_of_two_mem [10%nat] _ repr_one_of_two _).
  - lia.
  - reflexivity.
  - split; vm_compute; [discriminate | reflexivity].
Defined.

Lemma run_destroy_restores_witness :
  exists v st' st'',
    Vec.run 16 2 true [Vec.Push 10; Vec.Push 20; Vec.Push 30; Vec.Pop]%nat
      Vec.Vector_new one_of_two_mem = Ok (v, st')
    /\ Vec.Vector_destroy true v st' = Ok (tt, st'')
    /\ Vec.blocks st'' = Vec.blocks one_of_two_mem.
Proof.
  refine (run_destroy_restores 16 2 true _
            [Vec.Push 10; Vec.Push 20; Vec.Push 30; Vec.Pop]%nat
            one_of_two_mem _ _).
  - lia.
  - reflexivity.
  - split; vm_compute; [discriminate | reflexivity].
Defined.

Lemma repr_shared_one : Vec.repr 16 one_of_two shared_mem [10%nat].
Proof.
  split; simpl; [lia | lia | lia |].
  eexists. split; [|split]; reflexivity.
Defined.

Lemma repr_shared_other : Vec.repr 16 other_vector shared_mem [7%nat].
Proof.
  split; simpl; [lia | lia | lia |].
  eexists. split; [|split]; reflexivity.
Defined.

Lemma other_vector_untouched_witness :
  exists v st',
    Vec.run 16 2 true [Vec.Push 20; Vec.Push 30; Vec.Pop]%nat one_of_two
      shared_mem
    = Ok (v, st')
    /\ Vec.repr 16 v st' [10; 20]%nat
    /\ Vec.repr 16 other_vector st' [7%nat]
    /\ (forall q, Vec.m_data other_vector = Some q -> Vec.m_data v <> Some q).
Proof.
  refine (other_vector_untouched 16 2 true _
            [Vec.Push 20; Vec.Push 30; Vec.Pop]%nat
            one_of_two other_vector shared_mem [10%nat] [7%nat]
            _ repr_shared_one repr_shared_other _ _).
  - lia.
  - reflexivity.
  - intros q [= <-]. discriminate.
  - split; vm_compute; [discriminate | reflexivity].
Defined.

Lemma clear_retains_witness :
  exists v st',
    Vec.clear one_of_two one_of_two_mem = Ok (v, st')
    /\ Vec.getSize v = 0 /\ Vec.isEmpty v = true
    /\ Vec.m_capacity v = 2
    /\ Vec.m_data v = Some 1%positive
    /\ dom (Vec.blocks st') = dom (Vec.blocks one_of_two_mem)
    /\ exists v' st'',
         Vec.pushBack 16 2 false v (Vec.Outside 20%nat) st' = Ok (v', st'')
         /\ Vec.repr 16 v' st'' [20%nat].
Proof.
  refine (clear_retains 16 2 false _ one_of_two one_of_two_mem [10%nat] 20%nat
            repr_one_of_two _).
  - lia.
  - simpl. lia.
Defined.

Lemma pushBack_all_undefined_witness :
  Vec.pushBack_all 16 2 false [10; 20; 30]%nat Vec.Vector_new (Vec.Mem ∅ []) = UB
  /\ exists v st',
       Vec.pushBack_all 16 2 false [10; 20]%nat Vec.Vector_new (Vec.Mem ∅ [])
       = Ok (v, st')
       /\ Vec.repr 16 v st' [10; 20]%nat
       /\ (forall i x, [10; 20]%nat !! i = Some x ->
             Vec.get v (Z.of_nat i) st' = Ok (Vec.Obj x, st'))
       /\ forall value, Vec.pushBack 16 2 false v value st' = UB.
Proof.
  refine (pushBack_all_undefined 16 2 false _ [10; 20; 30]%nat (Vec.Mem ∅ [])
            _ _ _).
  - lia.
  - reflexivity.
  - split; vm_compute; [discriminate | reflexivity].
  - simpl. lia.
Defined.

Lemma run_undefined_beyond_two_witness :
  Vec.run 16 2 false
    [Vec.Push 10; Vec.Push 20; Vec.Pop; Vec.Push 30; Vec.Push 40]%nat
    Vec.Vector_new (Vec.Mem ∅ []) = UB.
Proof.
  refine (run_undefined_beyond_two 16 2 false _
            [Vec.Push 10; Vec.Push 20; Vec.Pop; Vec.Push 30; Vec.Push 40]%nat
            (Vec.Mem ∅ []) _ _ _).
  - lia.
  - reflexivity.
  - split; vm_compute; [discriminate | reflexivity].
  - simpl. lia.
Defined.

Lemma pushBack_full_undefined_witness :
  Vec.value_of (Vec.Element (Some 1%positive, 0)) two_of_two_mem
  = Ok (10%nat, two_of_two_mem)
  /\ Vec.pushBack 16 2 true two_of_two (Vec.Element (Some 1%positive, 0))
       two_of_two_mem = UB
  /\ (true = false ->
      forall value, Vec.pushBack 16 2 true two_of_two value two_of_two_mem = UB).
Proof.
  refine (pushBack_full_undefined 16 2 true _ two_of_two two_of_two_mem
            [10; 20]%nat 1%positive 0%nat 10%nat repr_two_of_two _ _ _ _).
  - lia.
  - reflexivity.
  - reflexivity.
  - split; vm_compute; [discriminate | reflexivity].
  - reflexivity.
Defined.

Lemma pushBack_appends_witness :
  exists v st',
    Vec.pushBack 16 2 true other_vector (Vec.Element (Some 1%positive, 0))
      shared_mem = Ok (v, st')
    /\ Vec.repr 16 v st' [7; 10]%nat
    /\ Vec.m_size v = 2
    /\ Vec.get v 1 st' = Ok (Vec.Obj 10%nat, st')
    /\ (1 = 1 ->
        Vec.m_capacity v = 3
        /\ Vec.m_data v = Some (fresh (dom (Vec.blocks shared_mem)))
        /\ Vec.trace st'
           = Vec.reallocation 2 (Some 5%positive)
               (fresh (dom (Vec.blocks shared_mem))) 1 (Vec.m_capacity v))
    /\ (1 < 1 ->
        Vec.m_capacity v = 1
        /\ Vec.m_data v = Some 5%positive
        /\ Vec.trace st' = []).
Proof.
  refine (pushBack_appends 16 2 true _ other_vector shared_mem [7%nat]
            (Vec.Element (Some 1%positive, 0)) 10%nat repr_shared_other _ _).
  - lia.
  - reflexivity.
  - intros _. split; [|split].
    + split; vm_compute; [discriminate | reflexivity].
    + by left.
    + simpl. discriminate.
Defined.

Lemma Array_reads_witness :
  (r ← Arr.front example_array; Arr.read example_array r) = Ok 1%nat
  /\ (r ← Arr.back 3 16 example_array; Arr.read example_array r) = Ok 3%nat
  /\ (r ← Arr.at_ 3 example_array 1; Arr.read example_array r) = Ok 2%nat
  /\ (r ← Arr.operator_index example_array 1; Arr.read example_array r)
     = Ok 2%nat
  /\ (3 <= 1 -> (r ← Arr.at_ 3 example_array 1; Arr.read example_array r) = UB).
Proof.
  refine (Array_reads 3 16 example_array 1 _ _).
  - reflexivity.
  - reflexivity.
Defined.

Lemma Array_assign_read_witness :
  exists a',
    (r ← Arr.at_ 3 example_array 1; Arr.assign example_array r 9%nat) = Ok a'
    /\ length (Arr.data a') = 3%nat
    /\ (r ← Arr.at_ 3 a' 2; Arr.read a' r)
       = (r ← Arr.at_ 3 example_array 2; Arr.read example_array r).
Proof.
  refine (Array_assign_read 3 example_array 1 2 9%nat _).
  simpl. lia.
Defined.

Lemma copy_destroy_both_witness :
  (g ← Fn.Function_copy example_wrapper; Fn.Function_destroy g) example_heap
  = Ok (tt, example_heap)
  /\ (g ← Fn.Function_copy example_wrapper;
      Fn.Function_destroy example_wrapper;; Fn.Function_destroy g) example_heap
     = Ok (tt, Fn.Heap (delete 1%positive (Fn.callables example_heap))
                       (Fn.objects example_heap))
  /\ (g ← Fn.Function_copy example_wrapper;
      Fn.Function_destroy g;; Fn.Function_destroy example_wrapper) example_heap
     = Ok (tt, Fn.Heap (delete 1%positive (Fn.callables example_heap))
                       (Fn.objects example_heap)).
Proof.
  refine (copy_destroy_both example_wrapper example_heap 1%positive
            example_callable _ _); reflexivity.
Defined.

Lemma Function_assign_takes_over_witness :
  Fn.Function_assign example_wrapper second_wrapper two_wrappers_heap = UB
  /\ exists r h',
    Fn.Function_assign_body example_wrapper second_wrapper two_wrappers_heap
    = Ok ({| Fn.m_callable := Some r |}, h')
    /\ r <> 2%positive
    /\ Fn.callables h' !! r = Some example_callable
    /\ Fn.callables h' !! 2%positive = Some example_callable
    /\ (forall t, t <> 1%positive -> t <> r ->
        Fn.callables h' !! t = Fn.callables two_wrappers_heap !! t)
    /\ (r <> 1%positive -> Fn.callables h' !! 1%positive = None)
    /\ Fn.objects h' = Fn.objects two_wrappers_heap
    /\ size (Fn.callables h') = size (Fn.callables two_wrappers_heap)
    /\ forall args,
         Fn.observe (Fn.Function_call {| Fn.m_callable := Some r |} args h')
         = Fn.observe (Fn.Function_call second_wrapper args two_wrappers_heap).
Proof.
  refine (Function_assign_takes_over example_wrapper second_wrapper
            two_wrappers_heap 1%positive 2%positive example_callable
            example_callable _ _ _ _ _); (reflexivity || discriminate).
Defined.

Lemma programs_keep_ownership_witness :
  exists ws h',
    Fn.exec_all example_program [] (Fn.Heap ∅ {[7%positive := 3]}) = Ok (ws, h')
    /\ Fn.exclusive ws h'
    /\ dom (Fn.objects h') = dom ({[7%positive := 3]} : gmap loc Z)
    /\ forall i j rest, (i < length ws)%nat -> (j < length ws)%nat ->
         Fn.exec_all (example_program ++ Fn.Assign i j :: rest) []
           (Fn.Heap ∅ {[7%positive := 3]}) = UB.
Proof.
  refine (programs_keep_ownership example_program {[7%positive := 3]} _).
  repeat constructor; simpl; try discriminate;
    try (apply elem_of_dom; by eexists).
Defined.
